(** * A transparent price cache: the cache store and the batch coordinator

    Shallow embedding of [cache.go].  The single-key operation
    [GetPriceFor] is embedded as a function in a small state monad over
    the cache record; the batch operation [GetPricesFor], which starts
    goroutines that talk over unbuffered channels, is embedded as an
    interleaving machine whose atomic steps are the statements of the
    goroutines. *)

From Stdlib Require Import ZArith Floats.
From stdpp Require Import gmap strings list.

(** ** Values of the Go program *)

(** [float64]: prices are only stored, copied and returned. *)
Abbreviation float64 := float (only parsing).

(** [error]: [None] is [nil], [Some msg] an error whose [Error()] is [msg]. *)
Abbreviation error := (option string) (only parsing).

(** [time.Time] and [time.Duration], as integer nanosecond counts; the zero
    [Time] (what a map read yields for a missing key) is instant [0].
    Arithmetic is the mathematical one: no overflow of the 64-bit counts. *)
Module time.
Abbreviation Time := Z (only parsing).
Abbreviation Duration := Z (only parsing).
Definition zero : Time := 0%Z.
Definition Add (t : Time) (d : Duration) : Time := (t + d)%Z.
Definition After (t u : Time) : bool := (u <? t)%Z.
End time.

(** [fmt.Errorf("getting price from service : %v", err.Error())] *)
Definition Errorf (cause : string) : error :=
  Some ("getting price from service : " +:+ cause).

(** ** The upstream service *)

(** [PriceService] is an interface with one method.  An implementation may
    keep state of its own, so calling it yields the new service too. *)
Class PriceService (Svc : Type) : Type :=
  PriceService_GetPriceFor : Svc → string → (float64 * error) * Svc.

(** A stateless service given by a table of answers. *)
Definition TableService : Type := string → float64 * error.

#[export] Instance TableService_PriceService : PriceService TableService :=
  λ f itemCode, (f itemCode, f).

(** A service that answers from a script, one entry per call, whatever the
    item code; when the script is used up it fails. *)
Definition ScriptService : Type := list (float64 * error).

#[export] Instance ScriptService_PriceService : PriceService ScriptService :=
  λ l _, match l with
         | r :: l' => (r, l')
         | [] => ((0%float, Some "no more prices"), [])
         end.

(** A wrapper that records the item codes the wrapped service is asked for,
    in order (the call counter of a test double). *)
Record Spy (Svc : Type) : Type := MkSpy { spied : Svc; calls : list string }.
Arguments MkSpy {Svc}.
Arguments spied {Svc}.
Arguments calls {Svc}.

#[export] Instance Spy_PriceService `{PriceService Svc} : PriceService (Spy Svc) :=
  λ sp itemCode,
    let '(r, s') := PriceService_GetPriceFor (spied sp) itemCode in
    (r, MkSpy s' (calls sp ++ [itemCode])).

(** ** The cache store *)

Record TransparentCache (Svc : Type) : Type := MkCache {
  Mutex : bool;                          (* embedded sync.Mutex: held? *)
  actualPriceService : Svc;
  maxAge : time.Duration;
  prices : gmap string float64;
  expirationByItem : gmap string time.Time;
}.
Arguments MkCache {Svc}.
Arguments Mutex {Svc}.
Arguments actualPriceService {Svc}.
Arguments maxAge {Svc}.
Arguments prices {Svc}.
Arguments expirationByItem {Svc}.

Definition NewTransparentCache {Svc} (actualPriceService : Svc) (maxAge : time.Duration)
  : TransparentCache Svc :=
  MkCache false actualPriceService maxAge ∅ ∅.

(** The monad of code that runs on the cache: it may change the cache and it
    may block for ever ([None]). *)
Definition Go (Svc A : Type) : Type := TransparentCache Svc → option (A * TransparentCache Svc).

#[export] Instance Go_ret {Svc} : MRet (Go Svc) := λ A a c, Some (a, c).

#[export] Instance Go_bind {Svc} : MBind (Go Svc) :=
  λ A B f m c, match m c with
               | Some (a, c') => f a c'
               | None => None
               end.

Section Primitives.
Context {Svc : Type} `{PriceService Svc}.

(** [c.prices[itemCode]] with the comma-ok form *)
Definition readPrice (itemCode : string) : Go Svc (option float64) :=
  λ c, Some (prices c !! itemCode, c).

(** [c.expirationByItem[itemCode]]: the zero [Time] when missing *)
Definition readExpiration (itemCode : string) : Go Svc time.Time :=
  λ c, Some (default time.zero (expirationByItem c !! itemCode), c).

Definition readMaxAge : Go Svc time.Duration := λ c, Some (maxAge c, c).

(** [c.actualPriceService.GetPriceFor(itemCode)] *)
Definition callService (itemCode : string) : Go Svc (float64 * error) :=
  λ c, let '(r, s') := PriceService_GetPriceFor (actualPriceService c) itemCode in
       Some (r, MkCache (Mutex c) s' (maxAge c) (prices c) (expirationByItem c)).

(** [c.Lock()]: blocks while the mutex is held *)
Definition Lock : Go Svc unit :=
  λ c, if Mutex c then None
       else Some (tt, MkCache true (actualPriceService c) (maxAge c)
                              (prices c) (expirationByItem c)).

(** [c.Unlock()]; it is only ever run by the holder *)
Definition Unlock : Go Svc unit :=
  λ c, Some (tt, MkCache false (actualPriceService c) (maxAge c)
                         (prices c) (expirationByItem c)).

(** [c.prices[itemCode] = price] *)
Definition writePrice (itemCode : string) (price : float64) : Go Svc unit :=
  λ c, Some (tt, MkCache (Mutex c) (actualPriceService c) (maxAge c)
                         (<[itemCode := price]> (prices c)) (expirationByItem c)).

(** [c.expirationByItem[itemCode] = t] *)
Definition writeExpiration (itemCode : string) (t : time.Time) : Go Svc unit :=
  λ c, Some (tt, MkCache (Mutex c) (actualPriceService c) (maxAge c)
                         (prices c) (<[itemCode := t]> (expirationByItem c))).

(** Lines 38-43: the price to return without asking the service, if any.
    [now] is what [time.Now()] returns on line 40. *)
Definition cacheHit (itemCode : string) (now : time.Time) : Go Svc (option float64) :=
  ok ← readPrice itemCode;
  match ok with
  | Some price =>
      exp ← readExpiration itemCode;
      age ← readMaxAge;
      if time.After (time.Add exp age) now then mret (Some price) else mret None
  | None => mret None
  end.

(** [GetPriceFor]; [now] is the reading of [time.Now()] on line 40 and
    [stored] the one on line 51.  The deferred [Unlock] runs last. *)
Definition GetPriceFor (itemCode : string) (now stored : time.Time)
  : Go Svc (float64 * error) :=
  hit ← cacheHit itemCode now;
  match hit with
  | Some price => mret (price, None)
  | None =>
      r ← callService itemCode;
      match r.2 with
      | Some cause => mret (0%float, Errorf cause)
      | None =>
          Lock;;
          writePrice itemCode r.1;;
          writeExpiration itemCode stored;;
          Unlock;;
          mret (r.1, None)
      end
  end.
End Primitives.

(** The two mappings hold the same keys. *)
Definition same_keys {Svc} (c : TransparentCache Svc) : Prop :=
  dom (prices c) = dom (expirationByItem c).

(** A table for examples: item "B" is unknown to the service. *)
Definition demoTable : TableService :=
  λ itemCode, if decide (itemCode = "B") then (0%float, Some "unknown item")
              else (10%float, None).

(** Unfolding of the monad and of the primitive operations. *)
Ltac go_unfold :=
  unfold cacheHit, readPrice, readExpiration, readMaxAge, callService, Lock,
    Unlock, writePrice, writeExpiration, mbind, Go_bind, mret, Go_ret in *.

Section CacheStore.
Context {Svc : Type} `{PriceService Svc}.

Lemma cacheHit_state (c : TransparentCache Svc) k now :
  ∃ o, cacheHit k now c = Some (o, c).
Proof.
  go_unfold. destruct (prices c !! k); [|eauto].
  destruct (time.After _ _); eauto.
Qed.

Lemma cacheHit_fresh (c : TransparentCache Svc) k v T now :
  prices c !! k = Some v → expirationByItem c !! k = Some T →
  (now < T + maxAge c)%Z →
  cacheHit k now c = Some (Some v, c).
Proof.
  intros Hp He Hlt. go_unfold. rewrite Hp. cbn.
  rewrite He. cbn.
  unfold time.After, time.Add.
  destruct (Z.ltb_spec now (T + maxAge c)); [done | lia].
Qed.

Lemma cacheHit_stale (c : TransparentCache Svc) k now :
  (prices c !! k = None ∨
   ∃ v T, prices c !! k = Some v ∧ expirationByItem c !! k = Some T ∧
          (T + maxAge c ≤ now)%Z) →
  cacheHit k now c = Some (None, c).
Proof.
  go_unfold.
  intros [Hp | (v & T & Hp & He & Hle)]; rewrite Hp; [done|].
  cbn. rewrite He. cbn. unfold time.After, time.Add.
  destruct (Z.ltb_spec now (T + maxAge c)); [lia | done].
Qed.

Lemma GetPriceFor_hit (c : TransparentCache Svc) k now stored v :
  cacheHit k now c = Some (Some v, c) →
  GetPriceFor k now stored c = Some ((v, None), c).
Proof. intros Hhit. unfold GetPriceFor, mbind, Go_bind. by rewrite Hhit. Qed.

Lemma GetPriceFor_miss (c : TransparentCache Svc) k now stored :
  cacheHit k now c = Some (None, c) →
  GetPriceFor k now stored c =
    let '((price, err), svc') := PriceService_GetPriceFor (actualPriceService c) k in
    match err with
    | Some cause =>
        Some ((0%float, Errorf cause),
              MkCache (Mutex c) svc' (maxAge c) (prices c) (expirationByItem c))
    | None =>
        if Mutex c then None
        else Some ((price, None),
                   MkCache false svc' (maxAge c) (<[k := price]> (prices c))
                           (<[k := stored]> (expirationByItem c)))
    end.
Proof.
  intros Hmiss. unfold GetPriceFor, mbind at 1, Go_bind at 1. rewrite Hmiss.
  go_unfold. destruct (PriceService_GetPriceFor _ _) as [[price [cause|]] svc']; cbn;
    [done|]. by destruct (Mutex c).
Qed.

End CacheStore.

(** ** The single-key operation *)

Section GetPriceFor_properties.
Context {Svc : Type} `{PriceService Svc}.

(** C3 (freshness).  If a price [v] is stored for [k] with stored-at time [T]
    and [GetPriceFor] is called at a time [T'] strictly before [T + maxAge],
    the call returns exactly [v] with a nil error, and the cache, the upstream
    service and the record of upstream calls are what they were: the upstream
    service is not invoked. *)
Theorem GetPriceFor_fresh_is_served_from_cache
    (c : TransparentCache (Spy Svc)) (k : string) (v : float64)
    (T T' stored : time.Time) :
  prices c !! k = Some v →
  expirationByItem c !! k = Some T →
  (T' < T + maxAge c)%Z →
  ∃ c', GetPriceFor k T' stored c = Some ((v, None), c') ∧
        calls (actualPriceService c') = calls (actualPriceService c) ∧
        c' = c.
Proof.
  intros Hp He Hlt. exists c. split; [|done].
  apply GetPriceFor_hit. by eapply cacheHit_fresh.
Qed.

(** C4 (expiry).  If no price is stored for [k], or one is stored with
    stored-at time [T] and the call comes at [T' ≥ T + maxAge], then (the
    mutex being free) the call returns, the upstream service is invoked
    exactly once, for [k], and when that lookup succeeds with [price] the call
    returns [price] with a nil error and both mappings are updated at [k]:
    the prices with [price], the timestamps with the fresh reading of the
    clock. *)
Theorem GetPriceFor_stale_is_refreshed
    (c : TransparentCache (Spy Svc)) (k : string) (T' stored : time.Time) :
  Mutex c = false →
  (prices c !! k = None ∨
   ∃ v T, prices c !! k = Some v ∧ expirationByItem c !! k = Some T ∧
          (T + maxAge c ≤ T')%Z) →
  ∃ r c', GetPriceFor k T' stored c = Some (r, c') ∧
    calls (actualPriceService c') = calls (actualPriceService c) ++ [k] ∧
    spied (actualPriceService c') =
      (PriceService_GetPriceFor (spied (actualPriceService c)) k).2 ∧
    ∀ price,
      (PriceService_GetPriceFor (spied (actualPriceService c)) k).1 = (price, None) →
      r = (price, None) ∧
      prices c' = <[k := price]> (prices c) ∧
      expirationByItem c' = <[k := stored]> (expirationByItem c).
Proof.
  intros Hmu Hstale.
  rewrite (GetPriceFor_miss c k T' stored (cacheHit_stale c k T' Hstale)).
  unfold PriceService_GetPriceFor at 1, Spy_PriceService.
  destruct (PriceService_GetPriceFor (spied (actualPriceService c)) k)
    as [[price [cause|]] svc'] eqn:Hsvc; cbn.
  - eexists _, _. split; [done|]. cbn. split; [done|]. split; [done|].
    intros price' [=].
  - rewrite Hmu. eexists _, _. split; [done|]. cbn. split; [done|]. split; [done|].
    by intros price' [= <-].
Qed.

(** C5 (upstream failure).  When the cache cannot answer for [k] and the
    upstream lookup fails with [cause], the call returns a non-nil error
    whose text names the upstream lookup and ends with [cause], the price
    returned with it is 0, and neither mapping changes. *)
Theorem GetPriceFor_upstream_failure_is_wrapped_and_not_cached
    (c : TransparentCache Svc) (k : string) (now stored : time.Time)
    (price : float64) (cause : string) (svc' : Svc) :
  cacheHit k now c = Some (None, c) →
  PriceService_GetPriceFor (actualPriceService c) k = ((price, Some cause), svc') →
  ∃ c', GetPriceFor k now stored c =
          Some ((0%float, Some ("getting price from service : " +:+ cause)), c') ∧
        prices c' = prices c ∧
        expirationByItem c' = expirationByItem c ∧
        Mutex c' = Mutex c.
Proof.
  intros Hmiss Hsvc. rewrite (GetPriceFor_miss c k now stored Hmiss), Hsvc.
  by eexists.
Qed.

(** [GetPriceFor] keeps the two mappings on the same keys. *)
Lemma GetPriceFor_same_keys (c c' : TransparentCache Svc) k now stored r :
  same_keys c → GetPriceFor k now stored c = Some (r, c') → same_keys c'.
Proof.
  unfold same_keys. intros Hdom Hrun.
  destruct (cacheHit_state c k now) as [[v|] Hhit].
  - rewrite (GetPriceFor_hit c k now stored v Hhit) in Hrun. by simplify_eq.
  - rewrite (GetPriceFor_miss c k now stored Hhit) in Hrun.
    destruct (PriceService_GetPriceFor _ _) as [[price [cause|]] svc'].
    + by simplify_eq.
    + destruct (Mutex c); simplify_eq. cbn. rewrite !dom_insert_L. by rewrite Hdom.
Qed.

Lemma GetPriceFor_Mutex (c c' : TransparentCache Svc) k now stored r :
  Mutex c = false → GetPriceFor k now stored c = Some (r, c') → Mutex c' = false.
Proof.
  intros Hmu Hrun.
  destruct (cacheHit_state c k now) as [[v|] Hhit].
  - rewrite (GetPriceFor_hit c k now stored v Hhit) in Hrun. by simplify_eq.
  - rewrite (GetPriceFor_miss c k now stored Hhit) in Hrun.
    destruct (PriceService_GetPriceFor _ _) as [[price [cause|]] svc'].
    + by simplify_eq.
    + destruct (Mutex c); by simplify_eq.
Qed.
End GetPriceFor_properties.

(** A cache holding 10.0 for "ABC", stored at instant 100, with a max age
    of 60. *)
Definition demoCache : TransparentCache (Spy TableService) :=
  MkCache false (MkSpy demoTable []) 60 {["ABC" := 10%float]} {["ABC" := 100%Z]}.

Lemma GetPriceFor_fresh_is_served_from_cache_witness :
  ∃ c', GetPriceFor "ABC" 159 159 demoCache = Some ((10%float, None), c') ∧
        calls (actualPriceService c') = [] ∧ c' = demoCache.
Proof.
  apply (GetPriceFor_fresh_is_served_from_cache demoCache "ABC" 10%float 100 159 159).
  - reflexivity.
  - reflexivity.
  - simpl. lia.
Defined.

Lemma GetPriceFor_stale_is_refreshed_witness :
  ∃ r c', GetPriceFor "ABC" 160 161 demoCache = Some (r, c') ∧
    calls (actualPriceService c') = calls (actualPriceService demoCache) ++ ["ABC"] ∧
    spied (actualPriceService c') =
      (PriceService_GetPriceFor (spied (actualPriceService demoCache)) "ABC").2 ∧
    ∀ price,
      (PriceService_GetPriceFor (spied (actualPriceService demoCache)) "ABC").1
        = (price, None) →
      r = (price, None) ∧
      prices c' = <["ABC" := price]> (prices demoCache) ∧
      expirationByItem c' = <["ABC" := 161%Z]> (expirationByItem demoCache).
Proof.
  apply (GetPriceFor_stale_is_refreshed demoCache "ABC" 160 161).
  - reflexivity.
  - right. exists 10%float, 100%Z. repeat split; simpl; lia.
Defined.

Lemma GetPriceFor_upstream_failure_is_wrapped_and_not_cached_witness :
  ∃ c', GetPriceFor "B" 160 161 demoCache =
          Some ((0%float, Some "getting price from service : unknown item"), c') ∧
        prices c' = prices demoCache ∧
        expirationByItem c' = expirationByItem demoCache ∧
        Mutex c' = Mutex demoCache.
Proof.
  apply (GetPriceFor_upstream_failure_is_wrapped_and_not_cached
           demoCache "B" 160 161 0%float "unknown item"
           (MkSpy demoTable ["B"])).
  - reflexivity.
  - reflexivity.
Defined.

(** ** The batch operation: goroutines and channels

    [GetPricesFor] starts one collector goroutine ([handleResults]) and one
    worker goroutine ([getConcurrentPrice]) per item code.  They meet on
    three unbuffered channels, [input], [errOutput] and [output], and on a
    [sync.WaitGroup].  Each goroutine is a program counter that also holds
    its live local variables; a step of the machine runs one statement of
    one goroutine.  A send on an unbuffered channel and the matching
    receive are one step, taken by the sender when the receiver waits. *)

(** Where a call of [GetPriceFor] is, statement by statement, with its live
    local variables. *)
Inductive gpc : Type :=
| GReadPrice                                     (* 38: c.prices[itemCode] *)
| GReadExp (price : float64)                     (* 40: c.expirationByItem[itemCode] *)
| GNow (price : float64) (exp : time.Time)       (* 40: time.Now() and the test *)
| GCall                                          (* 44: the upstream call *)
| GLock (price : float64)                        (* 48: c.Lock() *)
| GWritePrice (price : float64)                  (* 50 *)
| GStoreNow (price : float64)                    (* 51: time.Now() *)
| GWriteTime (price : float64) (t : time.Time)   (* 51: the map write *)
| GUnlock (price : float64)                      (* 49: the deferred c.Unlock() *)
| GReturn (price : float64) (err : error).       (* 41, 46, 52 *)

(** Where a worker [getConcurrentPrice] is: in its call of [GetPriceFor]
    (line 90), then on its two sends (lines 91-92). *)
Inductive wpc : Type :=
| WGetPriceFor (g : gpc)                         (* 90 *)
| WSendInput (price : float64) (err : error)     (* 91: input <- price *)
| WSendErr (price : float64) (err : error)       (* 92: errOutput <- err *)
| WDone (price : float64) (err : error).         (* returned *)

Record worker : Type := MkWorker { itemCode : string; pc : wpc }.

(** Where the collector [handleResults] is; [results] is its local slice. *)
Inductive hpc : Type :=
| HNotStarted
| HRange (results : list float64)                (* 81: receive from input *)
| HDone (results : list float64)                 (* 83: wg.Done(), after the append *)
| HSend (results : list float64)                 (* 85: output <- results *)
| HExit (results : list float64).

(** Where [GetPricesFor] itself is. *)
Inductive mpc : Type :=
| MGoHandler (itemCodes : list string)           (* 64 *)
| MLoop (rest : list string)                     (* 65-66: loop head and w.Add(1) *)
| MGo (itemCode : string) (rest : list string)   (* 67 *)
| MWait                                          (* 69 *)
| MCloseInput                                    (* 70 *)
| MRecvErr                                       (* 71 *)
| MIfErr (err : error)                           (* 72-74 *)
| MRecvOut (err : error)                         (* 75: <-output *)
| MDeferClose (results : list float64) (err : error)  (* 62: deferred close(output) *)
| MReturned (results : list float64) (err : error).

(** Run-time panics that the statements of the program can raise. *)
Inductive panic : Type :=
| SendOnClosedChannel
| CloseOfClosedChannel
| NegativeWaitGroupCounter.

Record State (Svc : Type) : Type := MkState {
  cache : TransparentCache Svc;     (* the shared *TransparentCache *)
  clock : time.Time;                (* the latest reading of time.Now() *)
  wg : Z;                           (* counter of the WaitGroup w *)
  inputClosed : bool;
  errOutputClosed : bool;
  outputClosed : bool;
  main : mpc;
  handler : hpc;
  workers : list worker;            (* in the order they were started *)
  crashed : option panic;           (* a panic ends the whole program *)
}.
Arguments MkState {Svc}.
Arguments cache {Svc}.
Arguments clock {Svc}.
Arguments wg {Svc}.
Arguments inputClosed {Svc}.
Arguments errOutputClosed {Svc}.
Arguments outputClosed {Svc}.
Arguments main {Svc}.
Arguments handler {Svc}.
Arguments workers {Svc}.
Arguments crashed {Svc}.

(** Which goroutine moves; a worker's move carries what [time.Now()] gives
    if the statement reads the clock. *)
Inductive action : Type :=
| AMain
| AHandler
| AWorker (i : nat) (now : time.Time).

Section Machine.
Context {Svc : Type} `{PriceService Svc}.

Definition set_cache (c : TransparentCache Svc) (s : State Svc) : State Svc :=
  MkState c (clock s) (wg s) (inputClosed s) (errOutputClosed s) (outputClosed s)
          (main s) (handler s) (workers s) (crashed s).
Definition set_clock (t : time.Time) (s : State Svc) : State Svc :=
  MkState (cache s) t (wg s) (inputClosed s) (errOutputClosed s) (outputClosed s)
          (main s) (handler s) (workers s) (crashed s).
Definition set_wg (n : Z) (s : State Svc) : State Svc :=
  MkState (cache s) (clock s) n (inputClosed s) (errOutputClosed s) (outputClosed s)
          (main s) (handler s) (workers s) (crashed s).
Definition close_input (s : State Svc) : State Svc :=
  MkState (cache s) (clock s) (wg s) true (errOutputClosed s) (outputClosed s)
          (main s) (handler s) (workers s) (crashed s).
Definition close_errOutput (s : State Svc) : State Svc :=
  MkState (cache s) (clock s) (wg s) (inputClosed s) true (outputClosed s)
          (main s) (handler s) (workers s) (crashed s).
Definition close_output (s : State Svc) : State Svc :=
  MkState (cache s) (clock s) (wg s) (inputClosed s) (errOutputClosed s) true
          (main s) (handler s) (workers s) (crashed s).
Definition set_main (m : mpc) (s : State Svc) : State Svc :=
  MkState (cache s) (clock s) (wg s) (inputClosed s) (errOutputClosed s) (outputClosed s)
          m (handler s) (workers s) (crashed s).
Definition set_handler (h : hpc) (s : State Svc) : State Svc :=
  MkState (cache s) (clock s) (wg s) (inputClosed s) (errOutputClosed s) (outputClosed s)
          (main s) h (workers s) (crashed s).
Definition set_workers (ws : list worker) (s : State Svc) : State Svc :=
  MkState (cache s) (clock s) (wg s) (inputClosed s) (errOutputClosed s) (outputClosed s)
          (main s) (handler s) ws (crashed s).
Definition throw (p : panic) (s : State Svc) : State Svc :=
  MkState (cache s) (clock s) (wg s) (inputClosed s) (errOutputClosed s) (outputClosed s)
          (main s) (handler s) (workers s) (Some p).

(** Worker [i] moves on to [pc']. *)
Definition goto (i : nat) (k : string) (pc' : wpc) (s : State Svc) : State Svc :=
  set_workers (<[i := MkWorker k pc']> (workers s)) s.

(** One statement of [GetPriceFor] on the cache [c] when the clock last read
    [clk]; [now] is what [time.Now()] gives if the statement calls it (the
    clock does not run backwards).  [None]: the call is blocked, or over. *)
Definition GetPriceFor_step (k : string) (now : time.Time) (g : gpc)
    (c : TransparentCache Svc) (clk : time.Time)
  : option (gpc * TransparentCache Svc * time.Time) :=
  match g with
  | GReadPrice =>
      '(ok, c) ← readPrice k c;
      Some (match ok with Some price => GReadExp price | None => GCall end, c, clk)
  | GReadExp price =>
      '(exp, c) ← readExpiration k c;
      Some (GNow price exp, c, clk)
  | GNow price exp =>
      if (clk <=? now)%Z
      then Some (if time.After (time.Add exp (maxAge c)) now
                 then GReturn price None else GCall, c, now)
      else None
  | GCall =>
      '(r, c) ← callService k c;
      Some (match r.2 with
            | Some cause => GReturn 0%float (Errorf cause)
            | None => GLock r.1
            end, c, clk)
  | GLock price =>
      '(_, c) ← Lock c;
      Some (GWritePrice price, c, clk)
  | GWritePrice price =>
      '(_, c) ← writePrice k price c;
      Some (GStoreNow price, c, clk)
  | GStoreNow price =>
      if (clk <=? now)%Z then Some (GWriteTime price now, c, now) else None
  | GWriteTime price t =>
      '(_, c) ← writeExpiration k t c;
      Some (GUnlock price, c, clk)
  | GUnlock price =>
      '(_, c) ← Unlock c;
      Some (GReturn price None, c, clk)
  | GReturn _ _ => None
  end.

(** Lines 57-76, after the channels are made. *)
Definition step_main (s : State Svc) : option (State Svc) :=
  match main s with
  | MGoHandler itemCodes => Some (set_handler (HRange []) (set_main (MLoop itemCodes) s))
  | MLoop [] => Some (set_main MWait s)
  | MLoop (k :: rest) => Some (set_wg (wg s + 1) (set_main (MGo k rest) s))
  | MGo k rest =>
      Some (set_workers (workers s ++ [MkWorker k (WGetPriceFor GReadPrice)])
                        (set_main (MLoop rest) s))
  | MWait => if (wg s =? 0)%Z then Some (set_main MCloseInput s) else None
  | MCloseInput =>
      if inputClosed s then Some (throw CloseOfClosedChannel s)
      else Some (close_input (set_main MRecvErr s))
  | MRecvErr =>
      (* a receive from a closed channel yields the zero value at once *)
      if errOutputClosed s then Some (set_main (MIfErr None) s) else None
  | MIfErr None => Some (set_main (MRecvOut None) s)
  | MIfErr (Some e) =>
      if errOutputClosed s then Some (throw CloseOfClosedChannel s)
      else Some (close_errOutput (set_main (MRecvOut (Some e)) s))
  | MRecvOut err =>
      if outputClosed s then Some (set_main (MDeferClose [] err) s) else None
  | MDeferClose results err =>
      if outputClosed s then Some (throw CloseOfClosedChannel s)
      else Some (close_output (set_main (MReturned results err) s))
  | MReturned _ _ => None
  end.

(** [handleResults], lines 79-86. *)
Definition step_handler (s : State Svc) : option (State Svc) :=
  match handler s with
  | HNotStarted => None
  | HRange results =>
      (* the loop ends when input is closed; a value arrives by a sender's step *)
      if inputClosed s then Some (set_handler (HSend results) s) else None
  | HDone results =>
      if (wg s <=? 0)%Z then Some (throw NegativeWaitGroupCounter s)
      else Some (set_wg (wg s - 1) (set_handler (HRange results) s))
  | HSend results =>
      if outputClosed s then Some (throw SendOnClosedChannel s)
      else match main s with
           | MRecvOut err =>
               Some (set_handler (HExit results) (set_main (MDeferClose results err) s))
           | _ => None
           end
  | HExit _ => None
  end.

(** [getConcurrentPrice], lines 89-93. *)
Definition step_worker (i : nat) (now : time.Time) (s : State Svc) : option (State Svc) :=
  wk ← workers s !! i;
  let k := itemCode wk in
  match pc wk with
  | WGetPriceFor (GReturn price err) =>
      (* line 90: price, err := the results of the call *)
      Some (goto i k (WSendInput price err) s)
  | WGetPriceFor g =>
      '(g', c, clk) ← GetPriceFor_step k now g (cache s) (clock s);
      Some (goto i k (WGetPriceFor g') (set_clock clk (set_cache c s)))
  | WSendInput price err =>
      if inputClosed s then Some (throw SendOnClosedChannel s)
      else match handler s with
           | HRange results =>
               Some (goto i k (WSendErr price err)
                          (set_handler (HDone (results ++ [price])) s))
           | _ => None
           end
  | WSendErr price err =>
      if errOutputClosed s then Some (throw SendOnClosedChannel s)
      else match main s with
           | MRecvErr => Some (goto i k (WDone price err) (set_main (MIfErr err) s))
           | _ => None
           end
  | WDone _ _ => None
  end.

(** One step of the program; [None] when the goroutine cannot move (it is
    blocked or has finished) or the program has crashed. *)
Definition step (a : action) (s : State Svc) : option (State Svc) :=
  match crashed s with
  | Some _ => None
  | None =>
      match a with
      | AMain => step_main s
      | AHandler => step_handler s
      | AWorker i now => step_worker i now s
      end
  end.

(** A schedule is the list of moves, in order. *)
Fixpoint run (sched : list action) (s : State Svc) : option (State Svc) :=
  match sched with
  | [] => Some s
  | a :: sched' => s' ← step a s; run sched' s'
  end.

(** The call [c.GetPricesFor(itemCodes...)] at the moment it has made its
    channels (lines 58-62); [now] is the clock at that moment. *)
Definition GetPricesFor (c : TransparentCache Svc) (now : time.Time)
    (itemCodes : list string) : State Svc :=
  MkState c now 0 false false false (MGoHandler itemCodes) HNotStarted [] None.

(** What the call has returned, once it has. *)
Definition returned (s : State Svc) : option (list float64 * error) :=
  match main s with
  | MReturned results err => Some (results, err)
  | _ => None
  end.

(** No goroutine can move. *)
Definition stuck (s : State Svc) : Prop := ∀ a, step a s = None.
End Machine.

(** ** Lists of goroutines updated in place *)

Section list_update.
Context {A B : Type} (f : A → option B).
Implicit Types l : list A.

Lemma omap_insert_perm l i x :
  l !! i = Some x →
  ∃ r, omap f l ≡ₚ option_list (f x) ++ r ∧
       ∀ y, omap f (<[i := y]> l) ≡ₚ option_list (f y) ++ r.
Proof.
  revert i. induction l as [|a l IH]; intros [|i] Hi; simplify_eq/=.
  - exists (omap f l). split; [by destruct (f x)|]. intros y. by destruct (f y).
  - destruct (IH i Hi) as (r & Hr & Hins).
    exists (option_list (f a) ++ r). split.
    + destruct (f a) as [b|]; csimpl; [|done].
      rewrite Hr. by rewrite Permutation_middle.
    + intros y. destruct (f a) as [b|]; csimpl; [|done].
      rewrite (Hins y). by rewrite Permutation_middle.
Qed.

Lemma omap_insert_same l i x y :
  l !! i = Some x → f y = f x → omap f (<[i := y]> l) = omap f l.
Proof.
  revert i. induction l as [|a l IH]; intros [|i] Hi Hf; simplify_eq/=.
  - by rewrite Hf.
  - by rewrite (IH i Hi Hf).
Qed.

Lemma omap_insert_new l i x y b :
  l !! i = Some x → f x = None → f y = Some b →
  omap f (<[i := y]> l) ≡ₚ b :: omap f l.
Proof.
  intros Hi Hx Hy. destruct (omap_insert_perm l i x Hi) as (r & Hr & Hins).
  rewrite (Hins y), Hr, Hx, Hy. done.
Qed.

Lemma omap_length_le l : length (omap f l) ≤ length l.
Proof. induction l as [|a l IH]; csimpl; [lia|]. destruct (f a); csimpl; lia. Qed.

Lemma omap_length_lt l :
  length (omap f l) < length l → ∃ i x, l !! i = Some x ∧ f x = None.
Proof.
  induction l as [|a l IH]; csimpl; [lia|]. intros Hlt.
  destruct (f a) as [b|] eqn:Ha.
  - destruct IH as (i & x & Hi & Hx); [csimpl in Hlt; lia|]. by exists (S i), x.
  - by exists 0, a.
Qed.

Lemma omap_length_eq l :
  length (omap f l) = length l → Forall (λ x, is_Some (f x)) l.
Proof.
  induction l as [|a l IH]; csimpl; [constructor|]. intros Hlen.
  pose proof (omap_length_le l).
  destruct (f a) as [b|] eqn:Ha; csimpl in Hlen; [|lia].
  constructor; [by rewrite Ha | apply IH; lia].
Qed.

Lemma omap_Forall_length l :
  Forall (λ x, is_Some (f x)) l → length (omap f l) = length l.
Proof.
  induction 1 as [|a l [b Ha] _ IH]; csimpl; [done|]. rewrite Ha. csimpl. by rewrite IH.
Qed.

Lemma omap_nil_Forall l : omap f l = [] → Forall (λ x, f x = None) l.
Proof.
  induction l as [|a l IH]; csimpl; [constructor|].
  destruct (f a) eqn:Ha; [done|]. intros Hl. constructor; auto.
Qed.

Lemma omap_cons_lookup l b bs :
  omap f l = b :: bs → ∃ i x, l !! i = Some x ∧ f x = Some b.
Proof.
  induction l as [|a l IH]; csimpl; [done|].
  destruct (f a) as [b'|] eqn:Ha.
  - intros [= -> _]. by exists 0, a.
  - intros Hl. destruct (IH Hl) as (i & x & Hi & Hx). by exists (S i), x.
Qed.
End list_update.

Lemma fmap_insert_same {A B} (g : A → B) (l : list A) i x y :
  l !! i = Some x → g y = g x → g <$> <[i := y]> l = g <$> l.
Proof.
  intros Hi Hg. rewrite list_fmap_insert, Hg.
  apply list_insert_id. by rewrite list_lookup_fmap, Hi.
Qed.

Lemma sum_list_with_insert {A} (g : A → nat) (l : list A) i x y :
  l !! i = Some x →
  sum_list_with g (<[i := y]> l) + g x = sum_list_with g l + g y.
Proof.
  revert i. induction l as [|a l IH]; intros [|i] Hi; simplify_eq/=; [lia|].
  specialize (IH i Hi). lia.
Qed.

(** ** What the goroutines have done so far *)

(** The price a worker has handed over on [input], if it has. *)
Definition sent (w : worker) : option float64 :=
  match pc w with
  | WSendErr price _ | WDone price _ => Some price
  | _ => None
  end.

Definition finished (w : worker) : bool :=
  match pc w with WDone _ _ => true | _ => false end.

Definition hres (h : hpc) : list float64 :=
  match h with
  | HNotStarted => []
  | HRange r | HDone r | HSend r | HExit r => r
  end.

(** Receives of the collector not yet matched by its [wg.Done()]. *)
Definition hpend (h : hpc) : Z := match h with HDone _ => 1 | _ => 0 end.

(** [w.Add(1)] done for a worker not yet started. *)
Definition madd (m : mpc) : Z := match m with MGo _ _ => 1 | _ => 0 end.

Definition input_is_closed (m : mpc) : bool :=
  match m with
  | MRecvErr | MIfErr _ | MRecvOut _ | MDeferClose _ _ | MReturned _ _ => true
  | _ => false
  end.

Definition errOutput_is_closed (m : mpc) : bool :=
  match m with
  | MRecvOut (Some _) | MDeferClose _ (Some _) | MReturned _ (Some _) => true
  | _ => false
  end.

Definition output_is_closed (m : mpc) : bool :=
  match m with MReturned _ _ => true | _ => false end.

(** Past [w.Wait()]. *)
Definition waited (m : mpc) : bool :=
  match m with
  | MGoHandler _ | MLoop _ | MGo _ _ | MWait => false
  | _ => true
  end.

(** Before the receive on [errOutput]. *)
Definition unread (m : mpc) : bool :=
  match m with
  | MGoHandler _ | MLoop _ | MGo _ _ | MWait | MCloseInput | MRecvErr => true
  | _ => false
  end.

Definition handler_ok (m : mpc) (h : hpc) : Prop :=
  match m, h with
  | MGoHandler _, HNotStarted => True
  | (MLoop _ | MGo _ _ | MWait), (HRange _ | HDone _) => True
  | MCloseInput, HRange _ => True
  | (MRecvErr | MIfErr _ | MRecvOut _), (HRange _ | HSend _) => True
  | (MDeferClose r _ | MReturned r _), HExit r' => r = r'
  | _, _ => False
  end.

Section Inversion.
Context {Svc : Type} `{PriceService Svc}.

(** The moves of a worker, case by case. *)
Inductive worker_step (i : nat) (now : time.Time) (s : State Svc) : State Svc → Prop :=
| ws_call k g g' c clk :
    workers s !! i = Some (MkWorker k (WGetPriceFor g)) →
    GetPriceFor_step k now g (cache s) (clock s) = Some (g', c, clk) →
    worker_step i now s (goto i k (WGetPriceFor g') (set_clock clk (set_cache c s)))
| ws_return k price err :
    workers s !! i = Some (MkWorker k (WGetPriceFor (GReturn price err))) →
    worker_step i now s (goto i k (WSendInput price err) s)
| ws_input_panic k price err :
    workers s !! i = Some (MkWorker k (WSendInput price err)) →
    inputClosed s = true →
    worker_step i now s (throw SendOnClosedChannel s)
| ws_input k price err results :
    workers s !! i = Some (MkWorker k (WSendInput price err)) →
    inputClosed s = false →
    handler s = HRange results →
    worker_step i now s
      (goto i k (WSendErr price err) (set_handler (HDone (results ++ [price])) s))
| ws_err_panic k price err :
    workers s !! i = Some (MkWorker k (WSendErr price err)) →
    errOutputClosed s = true →
    worker_step i now s (throw SendOnClosedChannel s)
| ws_err k price err :
    workers s !! i = Some (MkWorker k (WSendErr price err)) →
    errOutputClosed s = false →
    main s = MRecvErr →
    worker_step i now s (goto i k (WDone price err) (set_main (MIfErr err) s)).

Lemma step_worker_inv i now s s' :
  step_worker i now s = Some s' → worker_step i now s s'.
Proof.
  unfold step_worker. intros Hstep.
  destruct (workers s !! i) as [[k p]|] eqn:Hi; simplify_eq/=.
  destruct p as [g|price err|price err|price err]; simplify_eq/=.
  - destruct (GetPriceFor_step k now g (cache s) (clock s))
      as [[[g' c] clk]|] eqn:Hg.
    + destruct g; simplify_eq/=; by eapply ws_call.
    + destruct g; simplify_eq/=. by eapply ws_return.
  - destruct (inputClosed s) eqn:Hin; simplify_eq/=; [by eapply ws_input_panic|].
    destruct (handler s) eqn:Hh; simplify_eq/=. by eapply ws_input.
  - destruct (errOutputClosed s) eqn:He; simplify_eq/=; [by eapply ws_err_panic|].
    destruct (main s) eqn:Hm; simplify_eq/=. by eapply ws_err.
Qed.
End Inversion.

Section Protocol.
Context {Svc : Type} `{PriceService Svc}.

Record protocol (s : State Svc) : Prop := MkProtocol {
  prot_wg :
    wg s = (Z.of_nat (length (workers s)) + madd (main s)
            - (Z.of_nat (length (hres (handler s))) - hpend (handler s)))%Z;
  prot_results : hres (handler s) ≡ₚ omap sent (workers s);
  prot_handler : handler_ok (main s) (handler s);
  prot_input : inputClosed s = input_is_closed (main s);
  prot_errOutput : errOutputClosed s = errOutput_is_closed (main s);
  prot_output : outputClosed s = output_is_closed (main s);
  prot_sent : waited (main s) = true → Forall (λ w, is_Some (sent w)) (workers s);
  prot_not_done : unread (main s) = true → Forall (λ w, finished w = false) (workers s);
}.

Lemma protocol_init c now ks : protocol (GetPricesFor c now ks).
Proof. split; simpl; try done. Qed.

Lemma protocol_step a s s' : protocol s → step a s = Some s' → protocol s'.
Proof.
  intros [Hwg Hres Hh Hin Herr Hout Hsent Hnd]. unfold step.
  destruct s as [c clk n ic ec oc m h ws cr]; simpl in *.
  pose proof (Permutation_length Hres) as Hlen.
  pose proof (omap_length_le sent ws) as Hle.
  destruct cr; [done|]. destruct a as [| |i now].
  - unfold step_main; simpl. intros Hstep.
    destruct m as [ks|[|k ks]|k ks| | | |[e|]|e|r e|r e]; simpl in *;
      repeat case_match; simplify_eq/=.
    all: try by (split; simpl; try done; try lia).
    + split; simpl; try done.
      * rewrite length_app. simpl. lia.
      * rewrite omap_app. simpl. by rewrite app_nil_r.
      * intros _. apply Forall_app. split; [auto | by repeat constructor].
    + split; simpl; try done.
      * rewrite length_app. simpl. lia.
      * rewrite omap_app. simpl. by rewrite app_nil_r.
      * intros _. apply Forall_app. split; [auto | by repeat constructor].
    + split; simpl; try done; try lia.
      intros _. apply omap_length_eq. lia.
  - unfold step_handler; simpl. intros Hstep.
    destruct h as [|r|r|r|r]; simpl in *; repeat case_match; simplify_eq/=.
    all: try by (split; simpl; try done; try lia).
    all: destruct m; simpl in *; try done; by (split; simpl; try done; try lia).
  - intros Hstep. apply step_worker_inv in Hstep.
    destruct Hstep as [k g g' c' clk' Hi Hg|k price err Hi|k price err Hi Hc
                      |k price err r Hi Hc Hr|k price err Hi Hc|k price err Hi Hc Hm];
      simplify_eq/=.
    + split; simpl; try done.
      * by rewrite length_insert.
      * by rewrite (omap_insert_same sent ws i _ _ Hi).
      * intros Hw. by destruct (Forall_lookup_1 _ _ _ _ (Hsent Hw) Hi).
      * intros Hu. apply Forall_insert; auto.
    + split; simpl; try done.
      * by rewrite length_insert.
      * by rewrite (omap_insert_same sent ws i _ _ Hi).
      * intros Hw. by destruct (Forall_lookup_1 _ _ _ _ (Hsent Hw) Hi).
      * intros Hu. apply Forall_insert; auto.
    + by split.
    + assert (waited m = false) as Hw.
      { destruct (waited m) eqn:Hw; [|done].
        by destruct (Forall_lookup_1 _ _ _ _ (Hsent eq_refl) Hi). }
      split; simpl; try done.
      * rewrite length_insert, length_app. simpl. lia.
      * rewrite (omap_insert_new sent ws i _ _ price Hi); [|done..].
        rewrite <-Hres. symmetry. apply Permutation_cons_append.
      * by destruct m.
      * by rewrite Hw.
      * intros Hu. apply Forall_insert; auto.
    + by split.
    + split; simpl; try done.
      * by rewrite length_insert.
      * by rewrite (omap_insert_same sent ws i _ _ Hi).
      * intros _. apply Forall_insert; auto.
Qed.

(** Every state a schedule leads to. *)
Lemma protocol_run sched s s' : protocol s → run sched s = Some s' → protocol s'.
Proof.
  revert s. induction sched as [|a sched IH]; intros s Hs Hrun; simplify_eq/=; [done|].
  destruct (step a s) as [s1|] eqn:Hstep; simplify_eq/=.
  eauto using protocol_step.
Qed.
End Protocol.

(** Item codes for which no worker was started yet. *)
Definition pending (m : mpc) : list string :=
  match m with
  | MGoHandler ks | MLoop ks => ks
  | MGo k ks => k :: ks
  | _ => []
  end.

(** What a call of [GetPriceFor] for [k] holds: nothing, the mutex with the
    two mappings in step ([Some None]), or the mutex with the price of [k]
    written and its timestamp not yet ([Some (Some k)]). *)
Definition hold (k : string) (g : gpc) : option (option string) :=
  match g with
  | GWritePrice _ | GUnlock _ => Some None
  | GStoreNow _ | GWriteTime _ _ => Some (Some k)
  | _ => None
  end.

Definition holding (w : worker) : option (option string) :=
  match pc w with
  | WGetPriceFor g => hold (itemCode w) g
  | _ => None
  end.

(** The mutex is held exactly when one call is in its critical section. *)
Definition mutex_ok {Svc} (c : TransparentCache Svc) (hs : list (option string)) : Prop :=
  match hs with
  | [] => Mutex c = false
  | [_] => Mutex c = true
  | _ => False
  end.

(** The mappings hold the same keys, but for the key being written. *)
Definition keys_ok {Svc} (c : TransparentCache Svc) (hs : list (option string)) : Prop :=
  match hs with
  | [Some k] => dom (prices c) = {[k]} ∪ dom (expirationByItem c)
  | _ => same_keys c
  end.

Section Safety.
Context {Svc : Type} `{PriceService Svc}.

Definition spawned (ks : list string) (s : State Svc) : Prop :=
  (itemCode <$> workers s) ++ pending (main s) = ks.

Lemma spawned_init c now ks : spawned ks (GetPricesFor c now ks).
Proof. done. Qed.

Lemma spawned_step ks a s s' : spawned ks s → step a s = Some s' → spawned ks s'.
Proof.
  unfold spawned, step.
  destruct s as [c clk n ic ec oc m h ws cr]; simpl.
  destruct cr; [done|]. destruct a as [| |i now].
  - unfold step_main; simpl. intros Hks Hstep.
    destruct m as [ks'|[|k ks']|k ks'| | | |[e|]|e|r e|r e]; simpl in *;
      repeat case_match; simplify_eq/=; try done.
    by rewrite fmap_app, <-app_assoc.
  - unfold step_handler; simpl. intros Hks Hstep.
    destruct h; simpl in *; repeat case_match; simplify_eq/=; done.
  - intros Hks Hstep. apply step_worker_inv in Hstep.
    destruct Hstep; simplify_eq/=; try done.
    all: by erewrite fmap_insert_same.
Qed.

Lemma spawned_lookup ks s i w :
  spawned ks s → workers s !! i = Some w → itemCode w ∈ ks.
Proof.
  intros <- Hi. apply elem_of_app. left.
  apply list_elem_of_fmap. exists w. split; [done|]. by eapply list_elem_of_lookup_2.
Qed.

Lemma mutex_ok_perm (c : TransparentCache Svc) hs hs' :
  hs ≡ₚ hs' → mutex_ok c hs → mutex_ok c hs'.
Proof.
  intros Hp. pose proof (Permutation_length Hp) as Hlen.
  destruct hs as [|a [|b hs]], hs' as [|a' [|b' hs']]; simplify_eq/=; done.
Qed.

Lemma keys_ok_perm (c : TransparentCache Svc) hs hs' :
  hs ≡ₚ hs' → keys_ok c hs → keys_ok c hs'.
Proof.
  intros Hp. pose proof (Permutation_length Hp) as Hlen.
  destruct hs as [|a [|b hs]], hs' as [|a' [|b' hs']]; simplify_eq/=; try done.
  - apply Permutation_singleton_inj in Hp. by subst.
  - by destruct a, a'.
Qed.

(** One statement of [GetPriceFor] keeps the mutex discipline and the
    mappings' keys, whatever the other goroutines hold. *)
Lemma GetPriceFor_step_mutex k now g (c : TransparentCache Svc) clk g' c' clk' rest :
  GetPriceFor_step k now g c clk = Some (g', c', clk') →
  mutex_ok c (option_list (hold k g) ++ rest) →
  mutex_ok c' (option_list (hold k g') ++ rest) ∧
  (keys_ok c (option_list (hold k g) ++ rest) →
   keys_ok c' (option_list (hold k g') ++ rest)).
Proof.
  intros Hstep Hmu. destruct g; simpl in *; go_unfold; simpl in *;
    repeat case_match; simplify_eq/=; try done.
  - destruct p as [price [cause|]]; simpl;
      (split; [by destruct rest as [|? [|??]] | by destruct rest as [|[] [|??]]]).
  - destruct rest as [|? [|??]]; simpl in *; [done| |done]. congruence.
  - split; [done|]. unfold same_keys. intros Hk. by rewrite dom_insert_L, Hk.
  - split; [done|]. unfold same_keys. simpl. intros Hk. by rewrite dom_insert_L, Hk.
Qed.

Definition locking (s : State Svc) : Prop :=
  mutex_ok (cache s) (omap holding (workers s)).

Definition keyed (s : State Svc) : Prop :=
  keys_ok (cache s) (omap holding (workers s)).

Lemma locking_step a s s' :
  locking s → step a s = Some s' →
  locking s' ∧ (keyed s → keyed s').
Proof.
  unfold locking, keyed, step.
  destruct s as [c clk n ic ec oc m h ws cr]; simpl.
  destruct cr; [done|]. destruct a as [| |i now].
  - unfold step_main; simpl. intros Hmu Hstep.
    destruct m as [ks'|[|k ks']|k ks'| | | |[e|]|e|r e|r e]; simpl in *;
      repeat case_match; simplify_eq/=; try done.
    rewrite omap_app. simpl. by rewrite app_nil_r.
  - unfold step_handler; simpl. intros Hmu Hstep.
    destruct h; simpl in *; repeat case_match; simplify_eq/=; done.
  - intros Hmu Hstep. apply step_worker_inv in Hstep.
    destruct Hstep as [k g g' c' clk' Hi Hg|k price err Hi|k price err Hi Hc
                      |k price err r Hi Hc Hr|k price err Hi Hc|k price err Hi Hc Hm];
      simplify_eq/=; try done.
    2-4: by rewrite (omap_insert_same holding ws i _ _ Hi).
    destruct (omap_insert_perm holding ws i _ Hi) as (rest & Hws & Hins).
    specialize (Hins (MkWorker k (WGetPriceFor g'))). simpl in *.
    destruct (GetPriceFor_step_mutex k now g c clk g' c' clk' rest Hg) as [Hmu' Hk'].
    { by eapply mutex_ok_perm. }
    split.
    + eapply mutex_ok_perm; [symmetry; exact Hins | done].
    + intros Hk. eapply keys_ok_perm; [symmetry; exact Hins |].
      apply Hk'. by eapply keys_ok_perm.
Qed.

Lemma locking_run sched s s' :
  locking s → run sched s = Some s' → locking s' ∧ (keyed s → keyed s').
Proof.
  revert s. induction sched as [|a sched IH]; intros s Hs Hrun; simplify_eq/=; [done|].
  destruct (step a s) as [s1|] eqn:Hstep; simplify_eq/=.
  destruct (locking_step a s s1 Hs Hstep) as [Hs1 Hk1].
  destruct (IH s1 Hs1 Hrun) as [Hs' Hk']. auto.
Qed.
End Safety.

(** The results of a worker's call of [GetPriceFor], once it has returned. *)
Definition outcome (w : worker) : option (float64 * error) :=
  match pc w with
  | WGetPriceFor (GReturn price err) | WSendInput price err
  | WSendErr price err | WDone price err => Some (price, err)
  | _ => None
  end.

(** A failed lookup comes with the price 0. *)
Definition zero_on_error (w : worker) : Prop :=
  ∀ price err, outcome w = Some (price, err) → err ≠ None → price = 0%float.

(** The error [GetPricesFor] has read from [errOutput]. *)
Definition merr (m : mpc) : error :=
  match m with
  | MIfErr e | MRecvOut e | MDeferClose _ e | MReturned _ e => e
  | _ => None
  end.

Definition grank (g : gpc) : nat :=
  match g with
  | GReadPrice => 10 | GReadExp _ => 9 | GNow _ _ => 8 | GCall => 7
  | GLock _ => 6 | GWritePrice _ => 5 | GStoreNow _ => 4 | GWriteTime _ _ => 3
  | GUnlock _ => 2 | GReturn _ _ => 1
  end.

Definition wrank (w : worker) : nat :=
  match pc w with
  | WGetPriceFor g => 3 + grank g
  | WSendInput _ _ => 3
  | WSendErr _ _ => 1
  | WDone _ _ => 0
  end.

Definition hrank (h : hpc) : nat :=
  match h with
  | HNotStarted => 2 | HRange _ => 2 | HDone _ => 3 | HSend _ => 1 | HExit _ => 0
  end.

Definition mrank (m : mpc) : nat :=
  match m with
  | MGoHandler ks => 10 + length ks * 15
  | MLoop ks => 7 + length ks * 15
  | MGo _ ks => 21 + length ks * 15
  | MWait => 6 | MCloseInput => 5 | MRecvErr => 4 | MIfErr _ => 3
  | MRecvOut _ => 2 | MDeferClose _ _ => 1 | MReturned _ _ => 0
  end.

(** A bound on the number of steps the program can still take. *)
Definition fuel {Svc} (s : State Svc) : nat :=
  mrank (main s) + hrank (handler s) + sum_list_with wrank (workers s)
  + (if crashed s is Some _ then 0 else 1).

Section Liveness.
Context {Svc : Type} `{PriceService Svc}.

Lemma GetPriceFor_step_rank k now g (c : TransparentCache Svc) clk g' c' clk' :
  GetPriceFor_step k now g c clk = Some (g', c', clk') → grank g' < grank g.
Proof.
  intros Hstep. destruct g; simpl in *; go_unfold; simpl in *;
    repeat case_match; simplify_eq/=; repeat case_match; simpl; lia.
Qed.

Lemma step_fuel a (s s' : State Svc) : step a s = Some s' → fuel s' < fuel s.
Proof.
  unfold step, fuel.
  destruct s as [c clk n ic ec oc m h ws cr]; simpl.
  destruct cr; [done|]. destruct a as [| |i now].
  - unfold step_main; simpl. intros Hstep.
    destruct m as [ks'|[|k ks']|k ks'| | | |[e|]|e|r e|r e]; simpl in *;
      repeat case_match; simplify_eq/=; try lia.
    rewrite sum_list_with_app. simpl. lia.
  - unfold step_handler; simpl. intros Hstep.
    destruct h; simpl in *; repeat case_match; simplify_eq/=; lia.
  - intros Hstep. apply step_worker_inv in Hstep.
    destruct Hstep as [k g g' c' clk' Hi Hg|k price err Hi|k price err Hi Hc
                      |k price err r Hi Hc Hr|k price err Hi Hc|k price err Hi Hc Hm];
      simplify_eq/=; try lia.
    + pose proof (sum_list_with_insert wrank ws i _
                    (MkWorker k (WGetPriceFor g')) Hi) as Hsum.
      pose proof (GetPriceFor_step_rank _ _ _ _ _ _ _ _ Hg).
      unfold wrank in Hsum at 2 4. simpl in Hsum. lia.
    + pose proof (sum_list_with_insert wrank ws i _
                    (MkWorker k (WSendInput price err)) Hi) as Hsum.
      unfold wrank in Hsum at 2 4. simpl in Hsum. lia.
    + pose proof (sum_list_with_insert wrank ws i _
                    (MkWorker k (WSendErr price err)) Hi) as Hsum.
      unfold wrank in Hsum at 2 4. simpl in Hsum. lia.
    + pose proof (sum_list_with_insert wrank ws i _
                    (MkWorker k (WDone price err)) Hi) as Hsum.
      unfold wrank in Hsum at 2 4. simpl in Hsum. lia.
Qed.

Lemma run_fuel sched (s s' : State Svc) :
  run sched s = Some s' → length sched + fuel s' ≤ fuel s.
Proof.
  revert s. induction sched as [|a sched IH]; intros s Hrun; simplify_eq/=; [lia|].
  destruct (step a s) as [s1|] eqn:Hstep; simplify_eq/=.
  pose proof (step_fuel _ _ _ Hstep). pose proof (IH _ Hrun). lia.
Qed.

(** A statement of [GetPriceFor] can run unless it is the [Lock] of a held
    mutex (the clock may stand still). *)
Lemma GetPriceFor_step_enabled k g (c : TransparentCache Svc) clk :
  (∀ price err, g ≠ GReturn price err) →
  (∀ price, g = GLock price → Mutex c = false) →
  is_Some (GetPriceFor_step k clk g c clk).
Proof.
  intros Hret Hlock. destruct g; simpl; go_unfold; simpl;
    repeat case_match; simplify_eq/=; try done; try lia.
  - by specialize (Hlock _ eq_refl).
  - by destruct (Hret price err).
Qed.

Lemma hold_enabled k g (c : TransparentCache Svc) clk :
  is_Some (hold k g) → is_Some (GetPriceFor_step k clk g c clk).
Proof.
  intros [? Hh]. apply GetPriceFor_step_enabled.
  - by intros price err ->.
  - by intros price ->.
Qed.

Lemma step_worker_call i k g (s : State Svc) :
  workers s !! i = Some (MkWorker k (WGetPriceFor g)) →
  is_Some (GetPriceFor_step k (clock s) g (cache s) (clock s)) →
  is_Some (step_worker i (clock s) s).
Proof.
  intros Hi [[[g' c] clk] Hg]. unfold step_worker. rewrite Hi. simpl. rewrite Hg.
  destruct g; simpl; done.
Qed.

Lemma GetPriceFor_step_blocked k g (c : TransparentCache Svc) clk :
  GetPriceFor_step k clk g c clk = None →
  (∃ price err, g = GReturn price err) ∨ (∃ price, g = GLock price ∧ Mutex c = true).
Proof.
  intros Hg. destruct g; simpl in *; go_unfold; simpl in *;
    repeat case_match; simplify_eq/=; try lia; eauto.
Qed.

Lemma can_step a (s : State Svc) :
  crashed s = None →
  is_Some (match a with
           | AMain => step_main s
           | AHandler => step_handler s
           | AWorker i now => step_worker i now s
           end) →
  ∃ a s', step a s = Some s'.
Proof. intros Hcr [s' Hs']. exists a, s'. unfold step. by rewrite Hcr. Qed.

(** While the program has neither crashed nor returned, some goroutine can
    move, provided at least one item code was asked for. *)
Lemma progress ks (s : State Svc) :
  ks ≠ [] → spawned ks s → protocol s → locking s →
  crashed s = None → returned s = None →
  ∃ a s', step a s = Some s'.
Proof.
  intros Hne Hks [Hwg Hres Hh Hin Herr Hout Hsent Hnd] Hmu Hcr Hret.
  unfold spawned, locking, returned in *.
  pose proof (Permutation_length Hres) as Hlen.
  pose proof (omap_length_le sent (workers s)) as Hle.
  destruct (main s) as [ks'|[|k ks']|k ks'| | | |[e|]|e|r e|r e] eqn:Hm; simpl in *.
  all: try by (apply (can_step AMain); [done|]; unfold step_main; rewrite Hm;
               repeat case_match).
  - (* w.Wait() *)
    destruct (handler s) as [|r|r|r|r] eqn:Hhd; try done; simpl in *.
    2:{ apply (can_step AHandler); [done|]. unfold step_handler. rewrite Hhd.
        by case_match. }
    destruct (decide (wg s = 0%Z)) as [Hz|Hnz].
    { apply (can_step AMain); [done|]. unfold step_main. by rewrite Hm, Hz. }
    destruct (omap_length_lt sent (workers s)) as (i & [k p] & Hi & Hp); [lia|].
    destruct p as [g|price err|price err|price err]; simplify_eq/=.
    + destruct (GetPriceFor_step k (clock s) g (cache s) (clock s)) as [st|] eqn:Hg.
      { apply (can_step (AWorker i (clock s))); [done|].
        eapply step_worker_call; [done|]. by rewrite Hg. }
      apply GetPriceFor_step_blocked in Hg as [(price & err & ->)|(price & -> & Hheld)].
      { apply (can_step (AWorker i (clock s))); [done|].
        unfold step_worker. by rewrite Hi. }
      destruct (omap holding (workers s)) as [|o os] eqn:Hos; simpl in Hmu;
        [congruence|].
      destruct (omap_cons_lookup holding _ _ _ Hos) as (j & [kj pj] & Hj & Hpj).
      destruct pj as [gj| | |]; simplify_eq/=.
      apply (can_step (AWorker j (clock s))); [done|].
      eapply step_worker_call; [done|]. apply hold_enabled. by exists o.
    + apply (can_step (AWorker i (clock s))); [done|].
      unfold step_worker. rewrite Hi. simpl. by rewrite Hin, Hhd.
  - (* <-errOutput *)
    destruct (workers s) as [|[k p] ws] eqn:Hws; [by simplify_eq/=|].
    apply Forall_cons_1 in Hsent as [[price Hp] _]; [|done].
    apply Forall_cons_1 in Hnd as [Hf _]; [|done].
    destruct p as [g|price' err|price' err|price' err]; simplify_eq/=.
    apply (can_step (AWorker 0 (clock s))); [done|].
    unfold step_worker. rewrite Hws. simpl. by rewrite Herr, Hm.
  - (* <-output *)
    apply (can_step AHandler); [done|]. unfold step_handler.
    destruct (handler s) as [|r|r|r|r] eqn:Hhd; try done; simpl in *.
    + by rewrite Hin.
    + by rewrite Hout, Hm.
Qed.
End Liveness.

Section Outcomes.
Context {Svc : Type} `{PriceService Svc}.
(** A property [P] of the results of the calls of [GetPriceFor], kept by an
    invariant [I] of the cache, for the item codes [ks]. *)
Variable ks : list string.
Variable I : TransparentCache Svc → Prop.
Variable P : float64 * error → Prop.
Hypothesis call_ok : ∀ k now g c clk g' c' clk',
  k ∈ ks → I c → GetPriceFor_step k now g c clk = Some (g', c', clk') →
  I c' ∧ ∀ price err, g' = GReturn price err → P (price, err).

Definition outcomes_ok (s : State Svc) : Prop :=
  I (cache s) ∧
  Forall (λ w, ∀ o, outcome w = Some o → P o) (workers s) ∧
  ∀ e, merr (main s) = Some e → ∃ price, P (price, Some e).

Lemma outcomes_step a s s' :
  spawned ks s → outcomes_ok s → step a s = Some s' → outcomes_ok s'.
Proof.
  intros Hks (HI & Hws & Hm). unfold step.
  destruct (crashed s); [done|]. destruct a as [| |i now].
  - unfold step_main. intros Hstep.
    destruct s as [c clk n ic ec oc m h ws cr]; simpl in *.
    destruct m as [ks'|[|k ks']|k ks'| | | |[e|]|e|r e|r e]; simpl in *;
      repeat case_match; simplify_eq/=; repeat split; try done.
    apply Forall_app. split; [done|]. by repeat constructor.
  - unfold step_handler. intros Hstep.
    destruct s as [c clk n ic ec oc m h ws cr]; simpl in *.
    destruct h; simpl in *; repeat case_match; simplify_eq/=; repeat split; try done.
  - intros Hstep. apply step_worker_inv in Hstep.
    destruct Hstep as [k g g' c' clk' Hi Hg|k price err Hi|k price err Hi Hc
                      |k price err r Hi Hc Hr|k price err Hi Hc|k price err Hi Hc Hmn];
      simpl; try done.
    + destruct (call_ok k now g (cache s) (clock s) g' c' clk') as [HI' HP]; try done.
      { by apply (spawned_lookup ks s i (MkWorker k (WGetPriceFor g))). }
      repeat split; try done. apply Forall_insert; [done|].
      intros [price err] Ho. destruct g'; try done.
      injection Ho as -> ->. by apply HP.
    + repeat split; try done. apply Forall_insert; [done|].
      intros o Ho. by apply (Forall_lookup_1 _ _ _ _ Hws Hi).
    + repeat split; try done. apply Forall_insert; [done|].
      intros o Ho. by apply (Forall_lookup_1 _ _ _ _ Hws Hi).
    + repeat split; try done.
      * apply Forall_insert; [done|].
        intros o Ho. by apply (Forall_lookup_1 _ _ _ _ Hws Hi).
      * intros e [= ->]. exists price. by apply (Forall_lookup_1 _ _ _ _ Hws Hi).
Qed.
End Outcomes.

Section Crash.
Context {Svc : Type} `{PriceService Svc}.

End Crash.

(** ** Executions of [GetPricesFor] *)

Section Batch.
Context {Svc : Type} `{PriceService Svc}.

Lemma run_invariant (Inv : State Svc → Prop) :
  (∀ a s s', Inv s → step a s = Some s' → Inv s') →
  ∀ sched s s', Inv s → run sched s = Some s' → Inv s'.
Proof.
  intros Hstep sched. induction sched as [|a sched IH]; intros s s' Hs Hrun;
    simplify_eq/=; [done|].
  destruct (step a s) as [s1|] eqn:Ha; simplify_eq/=. eauto.
Qed.

Lemma run_spawned ks c now sched (s : State Svc) :
  run sched (GetPricesFor c now ks) = Some s → spawned ks s ∧ protocol s.
Proof.
  intros Hrun.
  apply (run_invariant (λ s, spawned ks s ∧ protocol s)) in Hrun; [done| |].
  - intros a s1 s2 [Hks Hprot] Hstep.
    eauto using spawned_step, protocol_step.
  - split; [apply spawned_init | apply protocol_init].
Qed.

Lemma run_locking ks c now sched (s : State Svc) :
  Mutex c = false →
  run sched (GetPricesFor c now ks) = Some s →
  locking s ∧ (same_keys c → keyed s).
Proof.
  intros Hmu Hrun.
  by destruct (locking_run sched (GetPricesFor c now ks) s Hmu Hrun).
Qed.

(** A worker that has handed its price over holds nothing, and its price
    is the one its call returned. *)
Lemma sent_holding ws :
  Forall (λ w, is_Some (sent w)) ws → omap holding ws = [].
Proof.
  induction 1 as [|[k p] ws [price Hp] _ IH]; [done|].
  csimpl. rewrite IH. by destruct p.
Qed.

Lemma sent_outcome w price :
  sent w = Some price → ∃ err, outcome w = Some (price, err).
Proof.
  destruct w as [k [g| | |]]; unfold sent, outcome; simpl; intros; simplify_eq; eauto.
Qed.

(** What is known when the call has returned. *)
Lemma run_returned ks c now sched (s : State Svc) results err :
  run sched (GetPricesFor c now ks) = Some s →
  returned s = Some (results, err) →
  itemCode <$> workers s = ks ∧
  results ≡ₚ omap sent (workers s) ∧
  Forall (λ w, is_Some (sent w)) (workers s) ∧
  length results = length ks.
Proof.
  intros Hrun Hret. destruct (run_spawned _ _ _ _ _ Hrun) as [Hks Hprot].
  destruct Hprot as [Hwg Hres Hh Hin Herr Hout Hsent Hnd].
  unfold returned, spawned in *.
  destruct (main s) as [| | | | | | | | |r e] eqn:Hm; try done.
  injection Hret as -> ->. simpl in *.
  destruct (handler s) as [| | | |r] eqn:Hhd; try done. simpl in *. subst r.
  rewrite app_nil_r in Hks. specialize (Hsent eq_refl). repeat split; try done.
  rewrite Hres, (omap_Forall_length _ _ Hsent). by rewrite <-Hks, length_fmap.
Qed.

Lemma GetPriceFor_step_zero k now g (c : TransparentCache Svc) clk g' c' clk' :
  GetPriceFor_step k now g c clk = Some (g', c', clk') →
  ∀ price err, g' = GReturn price err → err ≠ None → price = 0%float.
Proof.
  intros Hstep price err -> Herr. destruct g; simpl in *; go_unfold; simpl in *;
    repeat case_match; simplify_eq/=; try done.
  destruct p as [? [cause|]]; by simplify_eq/=.
Qed.

(** C10.  When [GetPricesFor] has returned, one worker was started per
    requested item code, in order and with repetitions; each of them has
    handed over exactly one price, the price its lookup returned; the
    returned slice is these prices in some order, so it has as many
    elements as item codes were asked for; and a worker whose lookup failed
    (non-nil error) handed over 0. *)
Theorem GetPricesFor_returns_one_value_per_key
    (c : TransparentCache Svc) (now : time.Time) (ks : list string)
    (sched : list action) (s : State Svc) (results : list float64) (err : error) :
  run sched (GetPricesFor c now ks) = Some s →
  returned s = Some (results, err) →
  length results = length ks ∧
  itemCode <$> workers s = ks ∧
  results ≡ₚ omap sent (workers s) ∧
  Forall (λ w, ∃ price e, outcome w = Some (price, e) ∧ sent w = Some price ∧
                          (e ≠ None → price = 0%float)) (workers s).
Proof.
  intros Hrun Hret.
  destruct (run_returned _ _ _ _ _ _ _ Hrun Hret) as (Hks & Hres & Hsent & Hlen).
  repeat split; try done.
  assert (outcomes_ok (λ _, True) (λ o, o.2 ≠ None → o.1 = 0%float) s)
    as (_ & Hzero & _).
  { apply (run_invariant (λ s, spawned ks s ∧
             outcomes_ok (λ _, True) (λ o, o.2 ≠ None → o.1 = 0%float) s))
      in Hrun as [_ Hok]; [done| |].
    - intros a s1 s2 [Hs1 Hok] Hstep. split; [by eapply spawned_step|].
      eapply (outcomes_step ks); [|done..].
      intros k now' g c1 clk g' c' clk' _ _ Hg. split; [done|].
      intros price e. simpl. by eapply GetPriceFor_step_zero.
    - split; [apply spawned_init|]. repeat split; [constructor|done]. }
  apply Forall_forall. intros w Hw.
  destruct (proj1 (Forall_forall _ _) Hsent w Hw) as [price Hp].
  destruct (sent_outcome w price Hp) as [e Ho].
  exists price, e. repeat split; try done.
  intros He. by apply (proj1 (Forall_forall _ _) Hzero w Hw (price, e)).
Qed.



(** ** The keys of the two mappings *)

(** The caches a program can have: a new one, and what a call of either
    operation leaves when it returns. *)
Inductive reachable : TransparentCache Svc → Prop :=
| reach_New svc age : reachable (NewTransparentCache svc age)
| reach_GetPriceFor c k now stored r c' :
    reachable c →
    GetPriceFor k now stored c = Some (r, c') →
    reachable c'
| reach_GetPricesFor c now ks sched s r :
    reachable c →
    run sched (GetPricesFor c now ks) = Some s →
    returned s = Some r →
    reachable (cache s).

Lemma reachable_inv c : reachable c → same_keys c ∧ Mutex c = false.
Proof.
  induction 1 as [svc age|c k now stored r c' _ [IHk IHm] Hcall
                 |c now ks sched s [results err] _ [IHk IHm] Hrun Hret].
  - done.
  - eauto using GetPriceFor_same_keys, GetPriceFor_Mutex.
  - destruct (run_returned _ _ _ _ _ _ _ Hrun Hret) as (_ & _ & Hsent & _).
    destruct (run_locking _ _ _ _ _ IHm Hrun) as [Hlock Hkeys].
    specialize (Hkeys IHk). unfold locking, keyed in *.
    by rewrite (sent_holding _ Hsent) in *.
Qed.

(** C6.  In every cache a program can have (a new cache, or the cache left
    by a call of [GetPriceFor] or of [GetPricesFor] on such a cache), the
    price mapping and the timestamp mapping have exactly the same keys. *)
Theorem reachable_same_keys (c : TransparentCache Svc) :
  reachable c → dom (prices c) = dom (expirationByItem c).
Proof. intros Hc. by destruct (reachable_inv c Hc). Qed.

(** ** No item codes *)

(** With no item code, [GetPricesFor] starts no worker and stays before its
    receive on [errOutput], which nothing closes. *)
Definition no_keys_inv (s : State Svc) : Prop :=
  workers s = [] ∧ errOutputClosed s = false ∧
  match main s with
  | MGoHandler [] | MLoop [] | MWait | MCloseInput | MRecvErr => True
  | _ => False
  end.

Lemma no_keys_step a (s s' : State Svc) :
  no_keys_inv s → step a s = Some s' → no_keys_inv s'.
Proof.
  intros (Hws & Herr & Hm). unfold step, no_keys_inv.
  destruct s as [c clk n ic ec oc m h ws cr]; simpl in *. subst.
  destruct cr; [done|]. destruct a as [| |i now].
  - unfold step_main; simpl. intros Hstep.
    destruct m as [[|]|[|]| | | | | | | |]; try done;
      simpl in *; repeat case_match; by simplify_eq/=.
  - unfold step_handler; simpl. intros Hstep.
    destruct h; simpl in *; repeat case_match; by simplify_eq/=.
  - done.
Qed.

(** C2, as the code has it.  Called with no item code, [GetPricesFor] never
    returns: no execution reaches its return, and the execution in which it
    runs up to its receive on [errOutput] and the collector reaches its
    send on [output] ends in a state where no goroutine can move. *)
Theorem GetPricesFor_no_keys_blocks (c : TransparentCache Svc) (now : time.Time) :
  (∀ sched s, run sched (GetPricesFor c now []) = Some s → returned s = None) ∧
  ∃ s, run [AMain; AMain; AMain; AMain; AHandler] (GetPricesFor c now []) = Some s ∧
       main s = MRecvErr ∧ handler s = HSend [] ∧ crashed s = None ∧ stuck s.
Proof.
  split.
  - intros sched s Hrun.
    apply (run_invariant _ no_keys_step) in Hrun as (_ & _ & Hm); [|done].
    unfold returned. by destruct (main s).
  - eexists. split; [reflexivity|]. repeat split; try done.
    intros [| |i t]; done.
Qed.
End Batch.

(** ** One call alone *)

Section Alone.
Context {Svc : Type} `{PriceService Svc}.

(** The statements of [GetPriceFor] run one after the other by a single
    goroutine: [now] is read on line 40 and [stored] on line 51. *)
Fixpoint GetPriceFor_run (n : nat) (k : string) (now stored : time.Time) (g : gpc)
    (c : TransparentCache Svc) (clk : time.Time)
  : option ((float64 * error) * TransparentCache Svc) :=
  match g, n with
  | GReturn price err, _ => Some ((price, err), c)
  | _, 0 => None
  | _, S n =>
      let reading := match g with GStoreNow _ => stored | _ => now end in
      '(g', c', clk') ← GetPriceFor_step k reading g c clk;
      GetPriceFor_run n k now stored g' c' clk'
  end.

Lemma GetPriceFor_run_S n k now stored g (c : TransparentCache Svc) clk :
  GetPriceFor_run (S n) k now stored g c clk =
  match g with
  | GReturn price err => Some ((price, err), c)
  | _ =>
      '(g', c', clk') ← GetPriceFor_step k
                          (match g with GStoreNow _ => stored | _ => now end) g c clk;
      GetPriceFor_run n k now stored g' c' clk'
  end.
Proof. by destruct g. Qed.

(** Run alone, the statements compute [GetPriceFor]. *)
Lemma GetPriceFor_run_alone k now stored (c : TransparentCache Svc) clk :
  (clk ≤ now)%Z → (now ≤ stored)%Z →
  GetPriceFor k now stored c = GetPriceFor_run 9 k now stored GReadPrice c clk.
Proof.
  intros Hnow Hstored.
  assert ((clk <=? now)%Z = true) as Hle1 by lia.
  assert ((now <=? stored)%Z = true) as Hle2 by lia.
  assert ((clk <=? stored)%Z = true) as Hle3 by lia.
  assert (cacheHit k now c =
          Some (match prices c !! k with
                | Some price =>
                    if time.After
                         (time.Add (default time.zero (expirationByItem c !! k))
                                   (maxAge c)) now
                    then Some price else None
                | None => None
                end, c)) as Hhit.
  { go_unfold. destruct (prices c !! k); [|done]. cbn.
    by destruct (time.After _ _). }
  revert Hhit.
  destruct (PriceService_GetPriceFor (actualPriceService c) k)
    as [[p [cause|]] svc'] eqn:Hsvc;
    destruct (Mutex c) eqn:Hmu;
    destruct (prices c !! k) as [price|] eqn:Hp;
    try destruct (time.After
                (time.Add (default time.zero (expirationByItem c !! k)) (maxAge c))
                now) eqn:Hafter;
    intros Hhit.
  all: (etrans;
        [first [apply GetPriceFor_hit; exact Hhit
               |apply GetPriceFor_miss; exact Hhit]|]).
  all: rewrite ?Hsvc, ?Hmu.
  all: do 9 try (rewrite GetPriceFor_run_S; cbn [GetPriceFor_step];
                 unfold readPrice, readExpiration, callService, Lock, writePrice,
                   writeExpiration, Unlock;
                 cbv beta;
                 cbn [Mutex actualPriceService maxAge prices expirationByItem];
                 rewrite ?Hp, ?Hafter, ?Hsvc, ?Hmu, ?Hle1, ?Hle2, ?Hle3;
                 cbn [mbind option_bind fst snd default]).
  all: reflexivity.
Qed.
End Alone.

(** ** Executions on examples *)

(** A new cache over [demoTable]: "B" fails upstream, any other item code
    costs 10. *)
Definition demoNew : TransparentCache TableService := NewTransparentCache demoTable 60.

(** [n] moves of worker [i], the clock reading [t]. *)
Definition moves (i : nat) (t : time.Time) (n : nat) : list action :=
  replicate n (AWorker i t).

(** [GetPricesFor] runs up to [w.Wait()], then the first worker runs its
    successful lookup and hands its price over, then the second. *)
Definition sched_lookups (second : nat) : list action :=
  replicate 6 AMain ++ moves 0 5 9 ++ [AHandler] ++ moves 1 7 second ++ [AHandler].

(** Both lookups done, [GetPricesFor] closes [input] and reads the error of
    worker [i]. *)
Definition sched_read_error (second i : nat) : list action :=
  sched_lookups second ++ [AMain; AMain; AWorker i 8; AMain].

(** ... and then takes the collected prices and returns. *)
Definition sched_return (second i : nat) : list action :=
  sched_read_error second i ++ [AHandler; AHandler; AMain].

Definition lost_failure : State TableService :=
  Eval vm_compute in
    default (GetPricesFor demoNew 0 []) (run (sched_return 4 0) (GetPricesFor demoNew 0 ["A"; "B"])).

Definition crash : State TableService :=
  Eval vm_compute in
    default (GetPricesFor demoNew 0 [])
            (run (sched_read_error 4 1 ++ [AWorker 0 9])
                 (GetPricesFor demoNew 0 ["A"; "B"])).

Definition leak : State TableService :=
  Eval vm_compute in
    default (GetPricesFor demoNew 0 []) (run (sched_return 9 0) (GetPricesFor demoNew 0 ["A"; "C"])).

(** C1, as the code has it.  "B" fails upstream, and an execution of
    [GetPricesFor("A", "B")] returns a nil error: the one error it reads is
    the nil one of the worker for "A"; the worker for "B" is left on its send
    of the failure. *)
Theorem GetPricesFor_can_lose_a_failure :
  (PriceService_GetPriceFor demoTable "B").1.2 = Some "unknown item" ∧
  run (sched_return 4 0) (GetPricesFor demoNew 0 ["A"; "B"]) = Some lost_failure ∧
  returned lost_failure = Some ([10%float; 0%float], None) ∧
  workers lost_failure !! 1 =
    Some (MkWorker "B" (WSendErr 0%float (Errorf "unknown item"))) ∧
  crashed lost_failure = None.
Proof. repeat split; vm_compute; reflexivity. Qed.

(** C9, as the code has it.  An execution of [GetPricesFor("A", "B")] in
    which the error read is the failure of "B": [GetPricesFor] closes
    [errOutput] while the worker for "A" still has its error to send, and
    that send panics. *)
Theorem GetPricesFor_can_send_on_closed_channel :
  run (sched_read_error 4 1 ++ [AWorker 0 9]) (GetPricesFor demoNew 0 ["A"; "B"])
    = Some crash ∧
  crashed crash = Some SendOnClosedChannel ∧
  errOutputClosed crash = true ∧
  main crash = MRecvOut (Errorf "unknown item") ∧
  workers crash !! 0 = Some (MkWorker "A" (WSendErr 10%float None)).
Proof. repeat split; vm_compute; reflexivity. Qed.

(** C8, as the code has it.  Both lookups of [GetPricesFor("A", "C")]
    succeed and the call returns both prices, yet the error of the worker
    for "C" is never received: the worker is on its send on [errOutput] in
    a state where no goroutine can move any more. *)
Theorem GetPricesFor_leaves_workers_blocked :
  run (sched_return 9 0) (GetPricesFor demoNew 0 ["A"; "C"]) = Some leak ∧
  returned leak = Some ([10%float; 10%float], None) ∧
  workers leak !! 1 = Some (MkWorker "C" (WSendErr 10%float None)) ∧
  crashed leak = None ∧
  stuck leak.
Proof.
  repeat split; try (vm_compute; reflexivity).
  intros [| |[|[|i]] t]; reflexivity.
Qed.

(** ** The theorems on examples *)




Lemma GetPricesFor_returns_one_value_per_key_witness :
  length [10%float; 0%float] = length ["A"; "B"] ∧
  itemCode <$> workers lost_failure = ["A"; "B"] ∧
  [10%float; 0%float] ≡ₚ omap sent (workers lost_failure) ∧
  Forall (λ w, ∃ price e, outcome w = Some (price, e) ∧ sent w = Some price ∧
                          (e ≠ None → price = 0%float)) (workers lost_failure).
Proof.
  apply (GetPricesFor_returns_one_value_per_key demoNew 0 ["A"; "B"]
           (sched_return 4 0) lost_failure [10%float; 0%float] None).
  - vm_compute. reflexivity.
  - vm_compute. reflexivity.
Defined.

Lemma reachable_same_keys_witness :
  dom (prices (cache lost_failure)) = dom (expirationByItem (cache lost_failure)).
Proof.
  apply reachable_same_keys.
  apply (reach_GetPricesFor demoNew 0 ["A"; "B"] (sched_return 4 0) lost_failure
           ([10%float; 0%float], None)).
  - apply reach_New.
  - vm_compute. reflexivity.
  - vm_compute. reflexivity.
Defined.

(** ** More on the single-key operation *)

Section GetPriceFor_more.
Context {Svc : Type} `{PriceService Svc}.

(** What [GetPriceFor] returns when the cache cannot answer: the price the
    service gave, or 0 and the wrapped failure. *)
Definition upstream_result (r : float64 * error) : float64 * error :=
  match r.2 with
  | Some cause => (0%float, Errorf cause)
  | None => (r.1, None)
  end.

(** X1.  The first call on a new cache, whatever the max age, the item code
    and the time, returns, asks the upstream service exactly once, for that
    item code, and returns what the service answered (0 and the wrapped
    failure when it failed); the mutex is free afterwards. *)
Theorem NewTransparentCache_first_call_asks_upstream
    (svc : Svc) (age : time.Duration) (k : string) (now stored : time.Time) :
  ∃ c', GetPriceFor k now stored (NewTransparentCache (MkSpy svc []) age)
          = Some (upstream_result (PriceService_GetPriceFor svc k).1, c') ∧
        calls (actualPriceService c') = [k] ∧
        Mutex c' = false.
Proof.
  rewrite GetPriceFor_miss by (apply cacheHit_stale; by left).
  unfold PriceService_GetPriceFor at 1, Spy_PriceService, upstream_result. simpl.
  destruct (PriceService_GetPriceFor svc k) as [[price [cause|]] svc']; simpl;
    by eexists.
Qed.

(** X2.  Store, then read back.  When a call that could not be answered from
    the cache fetched a price and stored it with the timestamp [stored], any
    later call for the same item code at a time strictly before
    [stored + maxAge] returns that price and changes nothing: neither the
    cache nor the upstream service. *)
Theorem GetPriceFor_stored_then_served
    (c c' : TransparentCache Svc) (k : string) (now stored now' stored' : time.Time)
    (price : float64) :
  cacheHit k now c = Some (None, c) →
  GetPriceFor k now stored c = Some ((price, None), c') →
  (now' < stored + maxAge c)%Z →
  GetPriceFor k now' stored' c' = Some ((price, None), c').
Proof.
  intros Hmiss Hcall Hlt. rewrite (GetPriceFor_miss c k now stored Hmiss) in Hcall.
  destruct (PriceService_GetPriceFor _ _) as [[p [cause|]] svc']; [done|].
  destruct (Mutex c); simplify_eq/=.
  apply GetPriceFor_hit. eapply cacheHit_fresh; simpl; [| |done].
  - apply lookup_insert_eq.
  - apply lookup_insert_eq.
Qed.

(** X3.  Store, then expire.  After such a store, a call for the same item
    code at a time at or after [stored + maxAge] asks the upstream service
    again: the service has then been asked twice for that item code. *)
Theorem GetPriceFor_stored_then_expired
    (c c' : TransparentCache (Spy Svc)) (k : string)
    (now stored now' stored' : time.Time) (price : float64) :
  cacheHit k now c = Some (None, c) →
  GetPriceFor k now stored c = Some ((price, None), c') →
  (stored + maxAge c ≤ now')%Z →
  ∃ r c'', GetPriceFor k now' stored' c' = Some (r, c'') ∧
           r = upstream_result
                 (PriceService_GetPriceFor (actualPriceService c') k).1 ∧
           calls (actualPriceService c'') = calls (actualPriceService c) ++ [k; k].
Proof.
  intros Hmiss Hcall Hle. rewrite (GetPriceFor_miss c k now stored Hmiss) in Hcall.
  unfold PriceService_GetPriceFor in Hcall at 1. unfold Spy_PriceService in Hcall.
  destruct (PriceService_GetPriceFor (spied (actualPriceService c)) k)
    as [[p [cause|]] svc'] eqn:Hsvc; [done|].
  destruct (Mutex c); simplify_eq/=.
  rewrite GetPriceFor_miss; simpl.
  2:{ apply cacheHit_stale. right. exists price, stored. simpl.
      by rewrite !lookup_insert_eq. }
  unfold PriceService_GetPriceFor at 1 2, Spy_PriceService, upstream_result. simpl.
  destruct (PriceService_GetPriceFor svc' k) as [[p2 [cause2|]] svc2]; simpl.
  - eexists _, _. split; [done|]. split; [done|]. simpl. by rewrite <-app_assoc.
  - eexists _, _. split; [done|]. split; [done|]. simpl. by rewrite <-app_assoc.
Qed.

(** X4.  A max age of zero or less switches the cache off: on a cache whose
    mappings have the same keys, if the stored timestamp of an item code is
    not in the future, the call (the mutex being free) asks the upstream
    service and returns what it answers, whether a price is stored or not. *)
Theorem GetPriceFor_maxAge_not_positive
    (c : TransparentCache (Spy Svc)) (k : string) (now stored : time.Time) :
  (maxAge c ≤ 0)%Z →
  (∀ T, expirationByItem c !! k = Some T → (T ≤ now)%Z) →
  same_keys c →
  Mutex c = false →
  ∃ c', GetPriceFor k now stored c =
          Some (upstream_result
                  (PriceService_GetPriceFor (actualPriceService c) k).1, c') ∧
        calls (actualPriceService c') = calls (actualPriceService c) ++ [k].
Proof.
  intros Hage Hpast Hkeys Hmu.
  assert (cacheHit k now c = Some (None, c)) as Hmiss.
  { apply cacheHit_stale. destruct (prices c !! k) as [v|] eqn:Hp; [right|by left].
    assert (is_Some (expirationByItem c !! k)) as [T HT].
    { apply elem_of_dom. rewrite <-Hkeys. apply elem_of_dom. eauto. }
    exists v, T. repeat split; [done|]. specialize (Hpast T HT). lia. }
  rewrite (GetPriceFor_miss c k now stored Hmiss), Hmu.
  unfold PriceService_GetPriceFor at 1 2, Spy_PriceService, upstream_result.
  destruct (PriceService_GetPriceFor (spied (actualPriceService c)) k)
    as [[price [cause|]] svc']; simpl; by eexists.
Qed.

(** X5.  [GetPriceFor] for one item code never touches the entries of
    another, never removes an entry, and never changes the max age. *)
Theorem GetPriceFor_other_keys_untouched
    (c c' : TransparentCache Svc) (k k' : string) (now stored : time.Time)
    (r : float64 * error) :
  GetPriceFor k now stored c = Some (r, c') →
  maxAge c' = maxAge c ∧
  dom (prices c) ⊆ dom (prices c') ∧
  dom (expirationByItem c) ⊆ dom (expirationByItem c') ∧
  (k' ≠ k →
   prices c' !! k' = prices c !! k' ∧
   expirationByItem c' !! k' = expirationByItem c !! k').
Proof.
  intros Hcall. destruct (cacheHit_state c k now) as [[v|] Hhit].
  - rewrite (GetPriceFor_hit c k now stored v Hhit) in Hcall. by simplify_eq.
  - rewrite (GetPriceFor_miss c k now stored Hhit) in Hcall.
    destruct (PriceService_GetPriceFor _ _) as [[p [cause|]] svc'].
    + by simplify_eq.
    + destruct (Mutex c); simplify_eq/=. rewrite !dom_insert_L.
      split; [done|]. split; [set_solver|]. split; [set_solver|].
      intros Hne. by rewrite !lookup_insert_ne.
Qed.

(** X6.  With the mutex free, [GetPriceFor] always returns, and it leaves
    the mutex free: the deferred [Unlock] runs on the one path that locks. *)
Theorem GetPriceFor_returns_and_unlocks
    (c : TransparentCache Svc) (k : string) (now stored : time.Time) :
  Mutex c = false →
  ∃ r c', GetPriceFor k now stored c = Some (r, c') ∧ Mutex c' = false.
Proof.
  intros Hmu. destruct (cacheHit_state c k now) as [[v|] Hhit].
  - rewrite (GetPriceFor_hit c k now stored v Hhit). eauto.
  - rewrite (GetPriceFor_miss c k now stored Hhit).
    destruct (PriceService_GetPriceFor _ _) as [[p [cause|]] svc'].
    + by eexists _, _.
    + rewrite Hmu. by eexists _, _.
Qed.

(** X7.  Every error [GetPriceFor] returns is a wrapped upstream failure:
    the cache could not answer, the upstream service failed with some
    [cause], the text is the prefix followed by [cause], the price is 0 and
    neither mapping changed. *)
Theorem GetPriceFor_error_is_upstream_failure
    (c c' : TransparentCache Svc) (k : string) (now stored : time.Time)
    (price : float64) (e : string) :
  GetPriceFor k now stored c = Some ((price, Some e), c') →
  ∃ cause,
    cacheHit k now c = Some (None, c) ∧
    (PriceService_GetPriceFor (actualPriceService c) k).1.2 = Some cause ∧
    e = "getting price from service : " +:+ cause ∧
    price = 0%float ∧
    prices c' = prices c ∧
    expirationByItem c' = expirationByItem c.
Proof.
  intros Hcall. destruct (cacheHit_state c k now) as [[v|] Hhit].
  - rewrite (GetPriceFor_hit c k now stored v Hhit) in Hcall. by simplify_eq.
  - rewrite (GetPriceFor_miss c k now stored Hhit) in Hcall.
    destruct (PriceService_GetPriceFor _ _) as [[p [cause|]] svc'].
    + unfold Errorf in Hcall. simplify_eq/=. by exists cause.
    + destruct (Mutex c); by simplify_eq/=.
Qed.
End GetPriceFor_more.

(** ** More on the batch operation *)

(** The error a worker has handed over on [errOutput], if it has. *)
Definition done_err (w : worker) : option error :=
  match pc w with
  | WDone _ err => Some err
  | _ => None
  end.

Lemma omap_lookup_length {A B} (f : A → option B) (l : list A) i x :
  l !! i = Some x → is_Some (f x) → 1 ≤ length (omap f l).
Proof.
  revert i. induction l as [|a l IH]; intros [|i] Hi [b Hb]; simplify_eq/=.
  - rewrite Hb. simpl. lia.
  - destruct (f a); simpl; [lia|]. by eapply IH.
Qed.

Lemma omap_lookup_two {A B} (f : A → option B) (l : list A) i j x y :
  i ≠ j → l !! i = Some x → l !! j = Some y → is_Some (f x) → is_Some (f y) →
  2 ≤ length (omap f l).
Proof.
  revert i j. induction l as [|a l IH]; intros [|i] [|j] Hne Hi Hj Hx Hy;
    simplify_eq/=.
  - destruct Hx as [b ->]. simpl.
    pose proof (omap_lookup_length f l j y Hj Hy). lia.
  - destruct Hy as [b ->]. simpl.
    pose proof (omap_lookup_length f l i x Hi Hx). lia.
  - assert (2 ≤ length (omap f l)) by (eapply (IH i j); eauto).
    destruct (f a); simpl; lia.
Qed.

Section Batch_more.
Context {Svc : Type} `{PriceService Svc}.

(** The receive on [errOutput] happens once: before it no worker has
    returned, after it exactly one has, and the error [GetPricesFor] holds
    is the one that worker sent. *)
Definition read_once (s : State Svc) : Prop :=
  omap done_err (workers s) = if unread (main s) then [] else [merr (main s)].

Lemma read_once_step a (s s' : State Svc) :
  protocol s → read_once s → step a s = Some s' → read_once s'.
Proof.
  intros Hprot Hread. pose proof (prot_errOutput s Hprot) as Herr.
  unfold read_once, step in *.
  destruct (crashed s) eqn:Hcr; [done|]. destruct a as [| |i now].
  - unfold step_main. intros Hstep.
    destruct s as [c clk n ic ec oc m h ws cr]; simpl in *.
    destruct m as [ks'|[|k ks']|k ks'| | | |[e|]|e|r e|r e]; simpl in *;
      repeat case_match; simplify_eq/=; try done.
    rewrite omap_app, Hread. done.
  - unfold step_handler. intros Hstep.
    destruct s as [c clk n ic ec oc m h ws cr]; simpl in *.
    destruct h; simpl in *; repeat case_match; simplify_eq/=; congruence.
  - intros Hstep. apply step_worker_inv in Hstep.
    destruct Hstep as [k g g' c' clk' Hi Hg|k price err Hi|k price err Hi Hc
                      |k price err r Hi Hc Hr|k price err Hi Hc|k price err Hi Hc Hmn];
      simpl; try done.
    1-3: by rewrite (omap_insert_same done_err _ i _ _ Hi).
    rewrite Hmn in Hread. simpl in *.
    pose proof (omap_insert_new done_err _ i _ (MkWorker k (WDone price err)) err
                  Hi eq_refl eq_refl) as Hperm.
    rewrite Hread in Hperm. by apply Permutation_singleton_r in Hperm.
Qed.

Lemma run_read_once ks c now sched (s : State Svc) :
  run sched (GetPricesFor c now ks) = Some s → read_once s.
Proof.
  intros Hrun.
  apply (run_invariant (λ s, protocol s ∧ read_once s)) in Hrun as [_ ?]; [done| |].
  - intros a s1 s2 [Hp Hr] Hstep. eauto using protocol_step, read_once_step.
  - split; [apply protocol_init | done].
Qed.

(** X9.  In every execution in which [GetPricesFor] has read [errOutput]
    (so also when it has returned), exactly one worker has returned: the
    error [GetPricesFor] holds is the error of that worker's lookup, and
    every other worker has handed over its price and is still on its send
    on [errOutput]. *)
Theorem GetPricesFor_one_worker_returns
    (c : TransparentCache Svc) (now : time.Time) (ks : list string)
    (sched : list action) (s : State Svc) :
  run sched (GetPricesFor c now ks) = Some s →
  unread (main s) = false →
  ∃ i k price,
    workers s !! i = Some (MkWorker k (WDone price (merr (main s)))) ∧
    ∀ j w, workers s !! j = Some w → j ≠ i →
           ∃ price' err', pc w = WSendErr price' err'.
Proof.
  intros Hrun Hread. pose proof (run_read_once _ _ _ _ _ Hrun) as Hone.
  destruct (run_spawned _ _ _ _ _ Hrun) as [_ Hprot].
  unfold read_once in Hone. rewrite Hread in Hone.
  destruct (omap_cons_lookup _ _ _ _ Hone) as (i & [k p] & Hi & Hp).
  destruct p as [g|price err|price err|price err]; try done.
  injection Hp as ->.
  exists i, k, price. split; [done|]. intros j w Hj Hne.
  assert (waited (main s) = true) as Hw by (by destruct (main s)).
  pose proof (Forall_lookup_1 _ _ _ _ (prot_sent s Hprot Hw) Hj) as [pj Hpj].
  destruct w as [kj [g|p' e'|p' e'|p' e']]; try done; [simpl; eauto|].
  pose proof (omap_lookup_two done_err (workers s) i j _ _ (not_eq_sym Hne) Hi Hj)
    as Htwo.
  rewrite Hone in Htwo. simpl in Htwo.
  assert (2 ≤ 1) by (apply Htwo; by eexists). lia.
Qed.

(** The step that panics: a worker's send on the closed [errOutput]. *)
Lemma step_panics a (s s' : State Svc) :
  protocol s → step a s = Some s' → crashed s' ≠ None →
  ∃ i now k price err,
    a = AWorker i now ∧
    workers s !! i = Some (MkWorker k (WSendErr price err)) ∧
    errOutputClosed s = true ∧
    s' = throw SendOnClosedChannel s.
Proof.
  intros [Hwg Hres Hh Hin Herr Hout Hsent Hnd]. unfold step.
  destruct (crashed s) eqn:Hcr; [done|]. destruct a as [| |i now].
  - unfold step_main. intros Hstep.
    destruct s as [c clk n ic ec oc m h ws cr]; simpl in *.
    destruct m as [ks'|[|k ks']|k ks'| | | |[e|]|e|r e|r e]; simpl in *;
      repeat case_match; simplify_eq/=; done.
  - unfold step_handler. intros Hstep.
    pose proof (Permutation_length Hres) as Hlen.
    pose proof (omap_length_le sent (workers s)) as Hle.
    destruct s as [c clk n ic ec oc m h ws cr]; simpl in *.
    destruct h; simpl in *; repeat case_match; simplify_eq/=; try done.
    + destruct m; simpl in *; try done; lia.
    + by destruct m.
  - intros Hstep. apply step_worker_inv in Hstep.
    destruct Hstep as [k g g' c' clk' Hi Hg|k price err Hi|k price err Hi Hc
                      |k price err r Hi Hc Hr|k price err Hi Hc|k price err Hi Hc Hmn];
      simpl; try done.
    + rewrite Hc in Hin. symmetry in Hin.
      assert (waited (main s) = true) as Hw by (by destruct (main s)).
      by destruct (Forall_lookup_1 _ _ _ _ (Hsent Hw) Hi).
    + intros _. by exists i, now, k, price, err.
Qed.

Lemma spawned_length ks (s : State Svc) :
  spawned ks s → length (workers s) ≤ length ks.
Proof. intros <-. rewrite length_app, length_fmap. lia. Qed.

(** X8.  With a single item code and the mutex free, [GetPricesFor] is
    faithful: every execution is finite, none panics, some goroutine can
    move until the call has returned, and it returns the one price and the
    error of the one lookup; no worker is left behind. *)
Theorem GetPricesFor_one_key
    (c : TransparentCache Svc) (now : time.Time) (k : string)
    (sched : list action) (s : State Svc) :
  Mutex c = false →
  run sched (GetPricesFor c now [k]) = Some s →
  length sched < fuel (GetPricesFor c now [k]) ∧
  crashed s = None ∧
  match returned s with
  | Some (results, err) =>
      ∃ price, results = [price] ∧ workers s = [MkWorker k (WDone price err)]
  | None => ∃ a s', step a s = Some s'
  end.
Proof.
  intros Hmu Hrun.
  destruct (run_spawned _ _ _ _ _ Hrun) as [Hks Hprot].
  destruct (run_locking _ _ _ _ _ Hmu Hrun) as [Hlock _].
  assert (crashed s = None) as Hcr.
  { apply (run_invariant (λ s, (spawned [k] s ∧ protocol s ∧ read_once s) ∧
                               crashed s = None)) in Hrun as [_ ?]; [done| |].
    - intros a s1 s2 [(Hs1 & Hp1 & Hr1) Hc1] Hstep.
      split.
      { split; [by eapply spawned_step|].
        split; [by eapply protocol_step | by eapply read_once_step]. }
      destruct (crashed s2) as [p|] eqn:Hc2; [exfalso|done].
      destruct (step_panics a s1 s2 Hp1 Hstep) as (i & t & k' & price & err & _ & Hi
                                                   & Hclosed & _); [by rewrite Hc2|].
      rewrite (prot_errOutput s1 Hp1) in Hclosed.
      assert (unread (main s1) = false) as Hu
        by (by destruct (main s1) as [| | | | | | |[]|?[]|?[]]).
      unfold read_once in Hr1. rewrite Hu in Hr1.
      destruct (omap_cons_lookup _ _ _ _ Hr1) as (j & [kj pj] & Hj & Hpj).
      pose proof (spawned_length _ _ Hs1) as Hlen. simpl in Hlen.
      pose proof (lookup_lt_Some _ _ _ Hi). pose proof (lookup_lt_Some _ _ _ Hj).
      assert (i = j) as -> by lia. by simplify_eq/=.
    - split; [|done]. split; [apply spawned_init|].
      split; [apply protocol_init | done]. }
  split; [|split; [done|]].
  - pose proof (run_fuel _ _ _ Hrun) as Hfuel. unfold fuel at 1 in Hfuel.
    rewrite Hcr in Hfuel. lia.
  - destruct (returned s) as [[results err]|] eqn:Hret;
      [|by apply (progress [k])].
    destruct (run_returned _ _ _ _ _ _ _ Hrun Hret) as (Hws & Hres & Hsent & Hlen).
    pose proof (run_read_once _ _ _ _ _ Hrun) as Hone. unfold read_once in Hone.
    unfold returned in Hret.
    destruct (main s) as [| | | | | | | | |r e] eqn:Hm; try done.
    injection Hret as -> ->. simpl in Hone.
    destruct (workers s) as [|[k' p] [|w' ws]]; try done.
    injection Hws as ->.
    destruct p as [g|price e'|price e'|price e']; try done.
    injection Hone as ->. apply Permutation_singleton_r in Hres. eauto.
Qed.



(** X12.  Mutual exclusion.  Started with the mutex free, at most one
    worker is between its [Lock] and its [Unlock] (lines 50-52) at any
    moment of any execution, and the mutex is held exactly when one is. *)
Theorem GetPricesFor_mutual_exclusion
    (c : TransparentCache Svc) (now : time.Time) (ks : list string)
    (sched : list action) (s : State Svc) :
  Mutex c = false →
  run sched (GetPricesFor c now ks) = Some s →
  (∀ i j wi wj,
     workers s !! i = Some wi → workers s !! j = Some wj →
     is_Some (holding wi) → is_Some (holding wj) → i = j) ∧
  (Mutex (cache s) = true ↔
   ∃ i w, workers s !! i = Some w ∧ is_Some (holding w)).
Proof.
  intros Hmu Hrun. destruct (run_locking _ _ _ _ _ Hmu Hrun) as [Hlock _].
  unfold locking in Hlock. split.
  - intros i j wi wj Hi Hj Hwi Hwj. destruct (decide (i = j)) as [|Hne]; [done|].
    pose proof (omap_lookup_two holding _ i j wi wj Hne Hi Hj Hwi Hwj) as Htwo.
    by destruct (omap holding (workers s)) as [|? [|??]]; simpl in *; try lia.
  - split.
    + intros Hheld.
      destruct (omap holding (workers s)) as [|o os] eqn:Hos; simpl in Hlock;
        [congruence|].
      destruct (omap_cons_lookup _ _ _ _ Hos) as (i & w & Hi & Hw). eauto.
    + intros (i & w & Hi & Hw).
      pose proof (omap_lookup_length holding _ i w Hi Hw) as Hlen.
      by destruct (omap holding (workers s)) as [|? [|??]]; simpl in *; try lia.
Qed.

(** X13.  The keys of the two mappings during a batch.  Started on a cache
    whose mappings have the same keys, with the mutex free, at any moment
    of any execution every key with a timestamp has a price, and a key with
    a price and no timestamp is the item code of a worker that has written
    the price (line 50) and not yet the timestamp (line 51). *)
Theorem GetPricesFor_keys_during
    (c : TransparentCache Svc) (now : time.Time) (ks : list string)
    (sched : list action) (s : State Svc) :
  Mutex c = false →
  same_keys c →
  run sched (GetPricesFor c now ks) = Some s →
  dom (expirationByItem (cache s)) ⊆ dom (prices (cache s)) ∧
  ∀ k, k ∈ dom (prices (cache s)) → k ∉ dom (expirationByItem (cache s)) →
       ∃ i price g,
         workers s !! i = Some (MkWorker k (WGetPriceFor g)) ∧
         (g = GStoreNow price ∨ ∃ t, g = GWriteTime price t).
Proof.
  intros Hmu Hkeys Hrun. destruct (run_locking _ _ _ _ _ Hmu Hrun) as [_ Hk].
  specialize (Hk Hkeys). unfold keyed, keys_ok, same_keys in Hk.
  destruct (omap holding (workers s)) as [|[k'|] [|??]] eqn:Hos;
    try (split; [by rewrite Hk|]; intros k Hin Hout; by rewrite Hk in Hin).
  split; [rewrite Hk; apply union_subseteq_r|]. intros k Hin Hout.
  assert (k = k') as ->.
  { rewrite Hk in Hin. apply elem_of_union in Hin as [Hin|Hin]; [|done].
    by apply elem_of_singleton in Hin. }
  destruct (omap_cons_lookup _ _ _ _ Hos) as (i & [ki p] & Hi & Hp).
  unfold holding in Hp. simpl in Hp.
  destruct p as [g| | |]; try done.
  destruct g; simplify_eq/=; eauto 10.
Qed.

(** X14.  [input] is closed only after every send on it.  At any moment of
    any execution at which [input] is closed, a worker has been started for
    every requested item code, every worker has handed over its price, and
    the collector holds exactly [len(keys)] prices. *)
Theorem GetPricesFor_input_closed_after_sends
    (c : TransparentCache Svc) (now : time.Time) (ks : list string)
    (sched : list action) (s : State Svc) :
  run sched (GetPricesFor c now ks) = Some s →
  inputClosed s = true →
  itemCode <$> workers s = ks ∧
  Forall (λ w, is_Some (sent w)) (workers s) ∧
  hres (handler s) ≡ₚ omap sent (workers s) ∧
  length (hres (handler s)) = length ks.
Proof.
  intros Hrun Hclosed. destruct (run_spawned _ _ _ _ _ Hrun) as [Hks Hprot].
  rewrite (prot_input s Hprot) in Hclosed.
  assert (waited (main s) = true) as Hw by (by destruct (main s)).
  pose proof (prot_sent s Hprot Hw) as Hsent.
  unfold spawned in Hks.
  assert (pending (main s) = []) as Hnil by (by destruct (main s)).
  rewrite Hnil, app_nil_r in Hks.
  repeat split; [done|done|apply (prot_results s Hprot)|].
  rewrite (prot_results s Hprot), (omap_Forall_length _ _ Hsent).
  by rewrite <-Hks, length_fmap.
Qed.
End Batch_more.

(** ** The cache during a batch *)

(** A call of [GetPriceFor] that has seen or written a price for its item
    code and has not failed. *)
Definition priced_call (g : gpc) : bool :=
  match g with
  | GReadExp _ | GNow _ _ | GStoreNow _ | GWriteTime _ _ | GUnlock _
  | GReturn _ None => true
  | _ => false
  end.

Definition priced (w : worker) : bool :=
  match pc w with
  | WGetPriceFor g => priced_call g
  | WSendInput _ None | WSendErr _ None | WDone _ None => true
  | _ => false
  end.



Section Cache_during_batch.
Context {Svc : Type} `{PriceService Svc}.

(** What one statement of [GetPriceFor] for [k] leaves alone. *)
Lemma GetPriceFor_step_frame k now g (c : TransparentCache Svc) clk g' c' clk' :
  GetPriceFor_step k now g c clk = Some (g', c', clk') →
  maxAge c' = maxAge c ∧
  dom (prices c) ⊆ dom (prices c') ∧
  dom (expirationByItem c) ⊆ dom (expirationByItem c') ∧
  (∀ k', k' ≠ k → prices c' !! k' = prices c !! k' ∧
                  expirationByItem c' !! k' = expirationByItem c !! k') ∧
  ((priced_call g = true → k ∈ dom (prices c)) →
   priced_call g' = true → k ∈ dom (prices c')).
Proof.
  intros Hstep. destruct g; simpl in *; go_unfold; simpl in *;
    repeat case_match; simplify_eq/=; repeat split; try done; auto.
  - intros _ _. apply elem_of_dom. eauto.
  - intros _. by destruct p as [? [?|]].
  - rewrite dom_insert_L. apply union_subseteq_r.
  - by rewrite lookup_insert_ne.
  - intros _ _. rewrite dom_insert_L. apply elem_of_union_l.
    by apply elem_of_singleton.
  - rewrite dom_insert_L. apply union_subseteq_r.
  - by rewrite lookup_insert_ne.
Qed.

(** What a batch leaves alone, and what its successful lookups leave. *)
Definition framed (ks : list string) (c : TransparentCache Svc) (s : State Svc) : Prop :=
  maxAge (cache s) = maxAge c ∧
  dom (prices c) ⊆ dom (prices (cache s)) ∧
  dom (expirationByItem c) ⊆ dom (expirationByItem (cache s)) ∧
  (∀ k, k ∉ ks → prices (cache s) !! k = prices c !! k ∧
                 expirationByItem (cache s) !! k = expirationByItem c !! k) ∧
  Forall (λ w, priced w = true → itemCode w ∈ dom (prices (cache s))) (workers s).

Lemma framed_step ks c a (s s' : State Svc) :
  spawned ks s → framed ks c s → step a s = Some s' → framed ks c s'.
Proof.
  intros Hks (Hage & Hp & He & Hother & Hpriced). unfold framed, step.
  destruct (crashed s) eqn:Hcr; [done|]. destruct a as [| |i now].
  - unfold step_main. intros Hstep.
    destruct s as [c1 clk n ic ec oc m h ws cr]; simpl in *.
    destruct m as [ks'|[|k ks']|k ks'| | | |[e|]|e|r e|r e]; simpl in *;
      repeat case_match; simplify_eq/=; repeat split; try done; try apply Hother;
      try done.
    apply Forall_app. split; [done|]. by repeat constructor.
  - unfold step_handler. intros Hstep.
    destruct s as [c1 clk n ic ec oc m h ws cr]; simpl in *.
    destruct h; simpl in *; repeat case_match; simplify_eq/=; repeat split;
      try done; by apply Hother.
  - intros Hstep. apply step_worker_inv in Hstep.
    destruct Hstep as [k g g' c' clk' Hi Hg|k price err Hi|k price err Hi Hc
                      |k price err r Hi Hc Hr|k price err Hi Hc|k price err Hi Hc Hmn];
      simpl; try done.
    + destruct (GetPriceFor_step_frame _ _ _ _ _ _ _ _ Hg)
        as (Hage' & Hp' & He' & Hother' & Hpriced').
      pose proof (spawned_lookup ks s i _ Hks Hi) as Hk. simpl in Hk.
      repeat split.
      * congruence.
      * by etrans.
      * by etrans.
      * rewrite (proj1 (Hother' k0 ltac:(intros ->; done))). by apply Hother.
      * rewrite (proj2 (Hother' k0 ltac:(intros ->; done))). by apply Hother.
      * apply Forall_insert.
        -- eapply Forall_impl; [exact Hpriced|]. intros w Hw Hpw.
           apply Hp'. auto.
        -- apply Hpriced'. apply (Forall_lookup_1 _ _ _ _ Hpriced Hi).
    + repeat split; try done; try by apply Hother.
      apply Forall_insert; [done|]. apply (Forall_lookup_1 _ _ _ _ Hpriced Hi).
    + repeat split; try done; try by apply Hother.
      apply Forall_insert; [done|]. apply (Forall_lookup_1 _ _ _ _ Hpriced Hi).
    + repeat split; try done; try by apply Hother.
      apply Forall_insert; [done|]. apply (Forall_lookup_1 _ _ _ _ Hpriced Hi).
Qed.

Lemma run_framed ks c now sched (s : State Svc) :
  run sched (GetPricesFor c now ks) = Some s → framed ks c s.
Proof.
  intros Hrun.
  apply (run_invariant (λ s, spawned ks s ∧ framed ks c s)) in Hrun as [_ ?];
    [done| |].
  - intros a s1 s2 [Hs Hf] Hstep. eauto using spawned_step, framed_step.
  - split; [apply spawned_init|]. by repeat split.
Qed.

(** X15.  A batch only touches the requested item codes.  At any moment of
    any execution the max age is what it was, no key has left either
    mapping, and the price and the timestamp of every item code that was
    not asked for are what they were. *)
Theorem GetPricesFor_touches_requested_keys_only
    (c : TransparentCache Svc) (now : time.Time) (ks : list string)
    (sched : list action) (s : State Svc) :
  run sched (GetPricesFor c now ks) = Some s →
  maxAge (cache s) = maxAge c ∧
  dom (prices c) ⊆ dom (prices (cache s)) ∧
  dom (expirationByItem c) ⊆ dom (expirationByItem (cache s)) ∧
  ∀ k, k ∉ ks → prices (cache s) !! k = prices c !! k ∧
                expirationByItem (cache s) !! k = expirationByItem c !! k.
Proof.
  intros Hrun. by destruct (run_framed _ _ _ _ _ Hrun) as (? & ? & ? & ? & _).
Qed.

(** X16.  A batch fills the cache.  At any moment of any execution, a worker
    whose lookup has returned a nil error has a price for its item code in
    the cache (the one it found or one written since). *)
Theorem GetPricesFor_successful_lookup_is_cached
    (c : TransparentCache Svc) (now : time.Time) (ks : list string)
    (sched : list action) (s : State Svc) (i : nat) (w : worker) (price : float64) :
  run sched (GetPricesFor c now ks) = Some s →
  workers s !! i = Some w →
  outcome w = Some (price, None) →
  itemCode w ∈ ks ∧ itemCode w ∈ dom (prices (cache s)).
Proof.
  intros Hrun Hi Ho. destruct (run_spawned _ _ _ _ _ Hrun) as [Hks _].
  split; [by eapply spawned_lookup|].
  destruct (run_framed _ _ _ _ _ Hrun) as (_ & _ & _ & _ & Hpriced).
  apply (Forall_lookup_1 _ _ _ _ Hpriced Hi).
  destruct w as [k [g|p e|p e|p e]]; unfold outcome, priced in *; simpl in *;
    [destruct g|..]; by simplify_eq.
Qed.
End Cache_during_batch.

(** ** The upstream calls of a batch *)

Section Upstream_calls.
Context {Svc : Type} `{PriceService Svc}.




End Upstream_calls.

Section Channels.
Context {Svc : Type} `{PriceService Svc}.

(** X18.  The channels are closed in order.  At any moment of any
    execution: [output] is closed exactly when the call has returned;
    [errOutput] is closed only after a non-nil error was read, with [input]
    already closed (so it stays open for ever when the error read is nil);
    and while [input] is open neither of the others is closed. *)
Theorem GetPricesFor_closes_channels_in_order
    (c : TransparentCache Svc) (now : time.Time) (ks : list string)
    (sched : list action) (s : State Svc) :
  run sched (GetPricesFor c now ks) = Some s →
  (outputClosed s = true ↔ is_Some (returned s)) ∧
  (errOutputClosed s = true →
   inputClosed s = true ∧ ∃ e, merr (main s) = Some e) ∧
  (inputClosed s = false → errOutputClosed s = false ∧ outputClosed s = false).
Proof.
  intros Hrun. destruct (run_spawned _ _ _ _ _ Hrun) as [_ Hprot].
  rewrite (prot_input s Hprot), (prot_errOutput s Hprot), (prot_output s Hprot).
  unfold returned.
  destruct (main s) as [| | | | | |[e|]|[e|]|?[e|]|?[e|]]; simpl;
    repeat split; try done; try (by intros [??]); eauto.
Qed.
End Channels.

(** ** The further theorems on examples *)

(** The new cache [demoNew] after a call for "A" at time 1 that stored at
    time 2. *)
Definition demoStored : TransparentCache TableService :=
  MkCache false demoTable 60 {["A" := 10%float]} {["A" := 2%Z]}.

Definition spyNew : TransparentCache (Spy TableService) :=
  NewTransparentCache (MkSpy demoTable []) 60.

Definition spyStored : TransparentCache (Spy TableService) :=
  MkCache false (MkSpy demoTable ["A"]) 60 {["A" := 10%float]} {["A" := 2%Z]}.

(** A cache with a max age of 0 holding a price for "ABC". *)
Definition demoNoAge : TransparentCache (Spy TableService) :=
  MkCache false (MkSpy demoTable []) 0 {["ABC" := 10%float]} {["ABC" := 100%Z]}.

Lemma GetPriceFor_stored_then_served_witness :
  GetPriceFor "A" 61 62 demoStored = Some ((10%float, None), demoStored).
Proof.
  apply (GetPriceFor_stored_then_served demoNew demoStored "A" 1 2 61 62 10%float).
  - reflexivity.
  - vm_compute. reflexivity.
  - simpl. lia.
Defined.

Lemma GetPriceFor_stored_then_expired_witness :
  ∃ r c'', GetPriceFor "A" 62 63 spyStored = Some (r, c'') ∧
           r = upstream_result
                 (PriceService_GetPriceFor (actualPriceService spyStored) "A").1 ∧
           calls (actualPriceService c'')
             = calls (actualPriceService spyNew) ++ ["A"; "A"].
Proof.
  apply (GetPriceFor_stored_then_expired spyNew spyStored "A" 1 2 62 63 10%float).
  - reflexivity.
  - vm_compute. reflexivity.
  - simpl. lia.
Defined.

Lemma GetPriceFor_maxAge_not_positive_witness :
  ∃ c', GetPriceFor "ABC" 100 101 demoNoAge =
          Some (upstream_result
                  (PriceService_GetPriceFor (actualPriceService demoNoAge) "ABC").1,
                c') ∧
        calls (actualPriceService c')
          = calls (actualPriceService demoNoAge) ++ ["ABC"].
Proof.
  apply (GetPriceFor_maxAge_not_positive demoNoAge "ABC" 100 101).
  - simpl. lia.
  - intros T. vm_compute. intros [= <-]. discriminate.
  - vm_compute. reflexivity.
  - reflexivity.
Defined.

Lemma GetPriceFor_other_keys_untouched_witness :
  maxAge demoStored = maxAge demoNew ∧
  dom (prices demoNew) ⊆ dom (prices demoStored) ∧
  dom (expirationByItem demoNew) ⊆ dom (expirationByItem demoStored) ∧
  ("ABC" ≠ "A" →
   prices demoStored !! "ABC" = prices demoNew !! "ABC" ∧
   expirationByItem demoStored !! "ABC" = expirationByItem demoNew !! "ABC").
Proof.
  apply (GetPriceFor_other_keys_untouched demoNew demoStored "A" "ABC" 1 2
           (10%float, None)).
  vm_compute. reflexivity.
Defined.

Lemma GetPriceFor_returns_and_unlocks_witness :
  ∃ r c', GetPriceFor "A" 1 2 demoNew = Some (r, c') ∧ Mutex c' = false.
Proof.
  apply (GetPriceFor_returns_and_unlocks demoNew "A" 1 2). reflexivity.
Defined.

Lemma GetPriceFor_error_is_upstream_failure_witness :
  ∃ cause,
    cacheHit "B" 1 demoNew = Some (None, demoNew) ∧
    (PriceService_GetPriceFor (actualPriceService demoNew) "B").1.2 = Some cause ∧
    "getting price from service : unknown item"
      = "getting price from service : " +:+ cause ∧
    0%float = 0%float ∧
    prices demoNew = prices demoNew ∧
    expirationByItem demoNew = expirationByItem demoNew.
Proof.
  apply (GetPriceFor_error_is_upstream_failure demoNew demoNew "B" 1 2 0%float
           "getting price from service : unknown item").
  vm_compute. reflexivity.
Defined.

(** [GetPricesFor("A")] run to its return. *)
Definition sched_single : list action :=
  replicate 4 AMain ++ moves 0 5 9 ++
  [AHandler; AMain; AMain; AWorker 0 8; AMain; AHandler; AHandler; AMain].

Definition single : State TableService :=
  Eval vm_compute in
    default (GetPricesFor demoNew 0 []) (run sched_single (GetPricesFor demoNew 0 ["A"])).


Lemma GetPricesFor_one_worker_returns_witness :
  ∃ i k price,
    workers lost_failure !! i
      = Some (MkWorker k (WDone price (merr (main lost_failure)))) ∧
    ∀ j w, workers lost_failure !! j = Some w → j ≠ i →
           ∃ price' err', pc w = WSendErr price' err'.
Proof.
  apply (GetPricesFor_one_worker_returns demoNew 0 ["A"; "B"] (sched_return 4 0)).
  - vm_compute. reflexivity.
  - reflexivity.
Defined.

Lemma GetPricesFor_one_key_witness :
  length sched_single < fuel (GetPricesFor demoNew 0 ["A"]) ∧
  crashed single = None ∧
  match returned single with
  | Some (results, err) =>
      ∃ price, results = [price] ∧ workers single = [MkWorker "A" (WDone price err)]
  | None => ∃ a s', step a single = Some s'
  end.
Proof.
  apply (GetPricesFor_one_key demoNew 0 "A" sched_single single).
  - reflexivity.
  - vm_compute. reflexivity.
Defined.



(** The execution of [lost_failure] stopped when the worker for "A" has
    written its price and not yet its timestamp. *)
Definition writing : State TableService :=
  Eval vm_compute in
    default (GetPricesFor demoNew 0 [])
            (run (replicate 6 AMain ++ moves 0 5 5) (GetPricesFor demoNew 0 ["A"; "B"])).

Lemma GetPricesFor_mutual_exclusion_witness :
  (∀ i j wi wj,
     workers writing !! i = Some wi → workers writing !! j = Some wj →
     is_Some (holding wi) → is_Some (holding wj) → i = j) ∧
  (Mutex (cache writing) = true ↔
   ∃ i w, workers writing !! i = Some w ∧ is_Some (holding w)).
Proof.
  apply (GetPricesFor_mutual_exclusion demoNew 0 ["A"; "B"]
           (replicate 6 AMain ++ moves 0 5 5)).
  - reflexivity.
  - vm_compute. reflexivity.
Defined.

Lemma GetPricesFor_keys_during_witness :
  dom (expirationByItem (cache writing)) ⊆ dom (prices (cache writing)) ∧
  ∀ k, k ∈ dom (prices (cache writing)) →
       k ∉ dom (expirationByItem (cache writing)) →
       ∃ i price g,
         workers writing !! i = Some (MkWorker k (WGetPriceFor g)) ∧
         (g = GStoreNow price ∨ ∃ t, g = GWriteTime price t).
Proof.
  apply (GetPricesFor_keys_during demoNew 0 ["A"; "B"]
           (replicate 6 AMain ++ moves 0 5 5)).
  - reflexivity.
  - reflexivity.
  - vm_compute. reflexivity.
Defined.

Lemma GetPricesFor_input_closed_after_sends_witness :
  itemCode <$> workers lost_failure = ["A"; "B"] ∧
  Forall (λ w, is_Some (sent w)) (workers lost_failure) ∧
  hres (handler lost_failure) ≡ₚ omap sent (workers lost_failure) ∧
  length (hres (handler lost_failure)) = length ["A"; "B"].
Proof.
  apply (GetPricesFor_input_closed_after_sends demoNew 0 ["A"; "B"]
           (sched_return 4 0)).
  - vm_compute. reflexivity.
  - reflexivity.
Defined.

Lemma GetPricesFor_touches_requested_keys_only_witness :
  maxAge (cache lost_failure) = maxAge demoNew ∧
  dom (prices demoNew) ⊆ dom (prices (cache lost_failure)) ∧
  dom (expirationByItem demoNew) ⊆ dom (expirationByItem (cache lost_failure)) ∧
  ∀ k, k ∉ ["A"; "B"] →
       prices (cache lost_failure) !! k = prices demoNew !! k ∧
       expirationByItem (cache lost_failure) !! k = expirationByItem demoNew !! k.
Proof.
  apply (GetPricesFor_touches_requested_keys_only demoNew 0 ["A"; "B"]
           (sched_return 4 0)).
  vm_compute. reflexivity.
Defined.

Lemma GetPricesFor_successful_lookup_is_cached_witness :
  "A" ∈ ["A"; "B"] ∧ "A" ∈ dom (prices (cache lost_failure)).
Proof.
  apply (GetPricesFor_successful_lookup_is_cached demoNew 0 ["A"; "B"]
           (sched_return 4 0) lost_failure 0 (MkWorker "A" (WDone 10%float None))
           10%float).
  - vm_compute. reflexivity.
  - reflexivity.
  - reflexivity.
Defined.


Lemma GetPricesFor_closes_channels_in_order_witness :
  (outputClosed crash = true ↔ is_Some (returned crash)) ∧
  (errOutputClosed crash = true →
   inputClosed crash = true ∧ ∃ e, merr (main crash) = Some e) ∧
  (inputClosed crash = false →
   errOutputClosed crash = false ∧ outputClosed crash = false).
Proof.
  apply (GetPricesFor_closes_channels_in_order demoNew 0 ["A"; "B"]
           (sched_read_error 4 1 ++ [AWorker 0 9])).
  vm_compute. reflexivity.
Defined.
